(** * WorQ broker core (worq/core.py): a shallow embedding and its properties

    The embedding follows [worq/core.py] method by method.  The source is
    Python 2 ([cPickle], [iteritems]); where the behaviour of an expression
    depends on the language version, the Python 2 meaning is the one
    modelled.

    - Python values that travel through the broker are [value]s; the objects
      handed to [Broker.serialize] are [object]s (a plain value or a task).
    - [Broker] methods mutate the task registry, talk to the message queue
      and write to the module logger, and they raise.  They are written in
      a state-and-exception monad [M] over the broker.
    - [AbstractMessageQueue] has no behaviour of its own in the source
      (every method raises [NotImplementedError]); it is a type class here
      and every statement about the broker is made for an arbitrary
      instance. *)

From Stdlib Require Import ZArith Ascii.
From stdpp Require Import base option list gmap strings.

Local Open Scope string_scope.

(** ** Python data *)

(** Plain picklable data.  [TASK_EXPIRED] is the constant of that name in
    [worq.const]: a single token, tested with [is] in the source. *)
Inductive value : Type :=
  | VNone
  | VBool (b : bool)
  | VInt (z : Z)
  | VStr (s : string)
  | TASK_EXPIRED.

#[export] Instance value_eq_dec : EqDecision value.
Proof. solve_decision. Defined.

(** The character with the given code. *)
Definition char (code : nat) : ascii := ascii_of_nat code.

Definition hex_digit (n : nat) : ascii :=
  char (if (n <? 10)%nat then 48 + n else 87 + n).

Fixpoint contains (c : ascii) (s : string) : bool :=
  match s with
  | EmptyString => false
  | String c' s => Ascii.eqb c c' || contains c s
  end.

Definition repr_char (quote c : ascii) : string :=
  let code := nat_of_ascii c in
  if Ascii.eqb c quote || (code =? 92)%nat then
    String (char 92) (String c EmptyString)
  else if (code =? 9)%nat then String (char 92) "t"
  else if (code =? 10)%nat then String (char 92) "n"
  else if (code =? 13)%nat then String (char 92) "r"
  else if (code <? 32)%nat || (127 <=? code)%nat then
    String (char 92)
      (String "x"%char
         (String (hex_digit (Nat.div code 16))
            (String (hex_digit (Nat.modulo code 16)) EmptyString)))
  else String c EmptyString.

Fixpoint repr_chars (quote : ascii) (s : string) : string :=
  match s with
  | EmptyString => EmptyString
  | String c s => repr_char quote c ++ repr_chars quote s
  end.

(** [repr(s)] of a Python 2 [str], as [%r] formats it: the string between
    single quotes, or between double quotes when it contains a single
    quote and no double quote; the quote character and the backslash are
    escaped with a backslash; tab, newline and carriage return are written
    as a backslash and [t], [n] or [r]; every other character outside the
    printable ASCII range as a backslash, [x] and two hexadecimal
    digits. *)
Definition repr (s : string) : string :=
  let quote :=
    if contains (char 39) s && negb (contains (char 34) s) then char 34
    else char 39 in
  String quote (repr_chars quote s ++ String quote EmptyString).

(** A name that [repr] only has to put between single quotes: printable
    ASCII without the single quote and the backslash. *)
Definition plain_char (c : ascii) : bool :=
  let code := nat_of_ascii c in
  (32 <=? code)%nat && (code <? 127)%nat
  && negb (code =? 39)%nat && negb (code =? 92)%nat.

Fixpoint plain_name (s : string) : bool :=
  match s with
  | EmptyString => true
  | String c s => plain_char c && plain_name s
  end.

(** Truth value of a Python object, as used by [if x] and [x or y]. *)
Definition truthy (v : value) : bool :=
  match v with
  | VNone => false
  | VBool b => b
  | VInt z => negb (z =? 0)%Z
  | VStr s => negb (String.eqb s "")
  | TASK_EXPIRED => true
  end.

(** A timeout argument: a number of seconds or [None]. *)
Definition timeout := option Z.

(** [a < b] on a timeout and a number.  In Python 2, [None] compares
    smaller than every number, so [None < 0] is [True]. *)
Definition py_lt (a : timeout) (b : Z) : bool :=
  match a with
  | None => true
  | Some x => (x <? b)%Z
  end.

(** The attributes of a task object that [worq/core.py] reads. *)
Module Task.
Record t := mk {
  name : string;
  id : string;
  args : list value;
  options : gmap string value;
  heartrate : Z;
  result_timeout : timeout
}.
End Task.

(** [DeferredResult(broker, id, name, heartrate)]; the weak reference to the
    broker is kept as the broker's name. *)
Module DeferredResult.
Record t := mk {
  broker : string;
  id : string;
  name : string;
  heartrate : Z
}.
End DeferredResult.

(** The attributes of a task set that [Broker.init_taskset] reads. *)
Module TaskSet.
Record t := mk {
  id : string;
  name : string;
  heartrate : Z
}.
End TaskSet.

(** [pop_result] and [status] accept any object with [id] and [name]. *)
Class Identified (A : Type) := {
  id_of : A → string;
  name_of : A → string
}.

#[export] Instance Task_identified : Identified Task.t :=
  {| id_of := Task.id; name_of := Task.name |}.
#[export] Instance DeferredResult_identified : Identified DeferredResult.t :=
  {| id_of := DeferredResult.id; name_of := DeferredResult.name |}.

(** What [Broker.serialize] is applied to and [Broker.deserialize] yields. *)
Inductive object : Type :=
  | OValue (v : value)
  | OTask (t : Task.t).

(** ** Exceptions *)

Inductive exn : Type :=
  | ValueError (msg : string)
  | KeyError (key : string)
  | TypeError (msg : string)
  | AttributeError (msg : string)
  | UnpicklingError
  | EOFError
  | ImportError (msg : string)
  | TaskExpired (task_name queue task_id cause : string)
  | TaskBodyError (msg : string)   (* an [Exception] out of a task body *)
  | KeyboardInterrupt
  | StopWorker.

(** [_StopWorker] and [KeyboardInterrupt] derive from [BaseException]
    only, every other exception here from [Exception]. *)
Definition is_Exception (e : exn) : bool :=
  match e with
  | StopWorker | KeyboardInterrupt => false
  | _ => true
  end.

Definition is_StopWorker (e : exn) : bool :=
  match e with StopWorker => true | _ => false end.

Inductive result (A : Type) : Type :=
  | Return (a : A)
  | Raise (e : exn).
Arguments Return {A} a.
Arguments Raise {A} e.

(** ** The logger *)

Inductive level := DEBUG | INFO | ERROR.

(** [log.<level>(format, *args)] *)
Record LogRecord := Log {
  log_level : level;
  log_format : string;
  log_args : list string
}.

(** ** The message queue interface *)

(** [AbstractMessageQueue].  A method takes the state of the queue and
    returns the new state, with its return value where it has one. *)
Class AbstractMessageQueue (MQ : Type) := {
  mq_url : MQ → string;
  mq_name : MQ → string;
  enqueue_task : string → value → option DeferredResult.t → MQ → MQ;
  get : timeout → MQ → option (string * value) * MQ;
  discard_pending : MQ → MQ;
  set_task_timeout : string → Z → MQ → MQ;
  mq_set_status : string → value → MQ → MQ;
  mq_get_status : string → MQ → option value * MQ;
  mq_set_result : string → value → timeout → MQ → MQ;
  mq_pop_result : string → timeout → MQ → option value * MQ;
  discard_result : string → value → MQ → MQ;
  mq_init_taskset : string → DeferredResult.t → MQ → MQ;
  update_taskset : string → Z → value → timeout → MQ → option (list value) * MQ
}.

(** The names of [Broker.task_options]. *)
Definition task_options : gset string :=
  {[ "result_status"; "result_timeout"; "heartrate"; "taskset"; "on_error";
     "size" ]}.

(** [_stop_task.name] *)
Definition stop_task_name : string := "<stop_task>".


(** ** The broker *)

(** The task options that ask for result tracking, as [Broker.enqueue]
    reads them: a true [result_status], or a [result_timeout] entry. *)
Definition requests_tracking (options : gmap string value) : Prop :=
  (∃ v, options !! "result_status" = Some v ∧ truthy v = true)
  ∨ is_Some (options !! "result_timeout").


Section Broker.
Context {MQ : Type} `{!AbstractMessageQueue MQ}.

(** Task callables, with [_stop_task] among them. *)
Context {callable : Type}.
Variable _stop_task : callable.
(** The name under which [TaskSpace.task] registers a callable
    ([worq.task]). *)
Variable callable_name : callable → string.

(** [cPickle.dumps(obj, HIGHEST_PROTOCOL)] and [cPickle.loads]; [loads]
    returns an object or raises, and what it raises is up to the codec
    and to the message. *)
Variable dumps : object → string.
Variable loads : string → result object.

(** Membership in [worq.const.STATUS_VALUES]. *)
Variable STATUS_VALUES : value → bool.

(** The broker object, together with what the module logger has
    recorded. *)
Record Broker := mkBroker {
  messages : MQ;
  tasks : gmap string callable;
  name : string;
  log : list LogRecord
}.

(** The broker [b] with the queue in state [mq]. *)
Definition with_messages (b : Broker) (mq : MQ) : Broker :=
  mkBroker mq (tasks b) (name b) (log b).

(** The broker [b] after one more record of the logger. *)
Definition with_log (b : Broker) (r : LogRecord) : Broker :=
  mkBroker (messages b) (tasks b) (name b) (log b ++ [r])%list.

(** [v in STATUS_VALUES] for an arbitrary object. *)
Definition in_STATUS_VALUES (v : object) : bool :=
  match v with
  | OValue x => STATUS_VALUES x
  | OTask _ => false
  end.

(** State and exceptions. *)
Definition M (A : Type) : Type := Broker → result A * Broker.

Definition ret {A} (a : A) : M A := λ b, (Return a, b).
Definition raise {A} (e : exn) : M A := λ b, (Raise e, b).
Definition bind {A B} (m : M A) (k : A → M B) : M B :=
  λ b, match m b with
       | (Return a, b') => k a b'
       | (Raise e, b') => (Raise e, b')
       end.

Notation "'let*' x ':=' m 'in' k" := (bind m (λ x, k))
  (at level 10, x pattern, m at level 100, k at level 200).

(** [try: body except <catches>: handler] *)
Definition try_except {A} (body : M A) (catches : exn → bool)
    (handler : exn → M A) : M A :=
  λ b, match body b with
       | (Raise e, b') => if catches e then handler e b' else (Raise e, b')
       | r => r
       end.

Definition self : M Broker := λ b, (Return b, b).

(** A call of a method of [self.messages]. *)
Definition call {A} (f : MQ → A * MQ) : M A :=
  λ b, let '(a, mq) := f (messages b) in
       (Return a, mkBroker mq (tasks b) (name b) (log b)).
Definition call_ (f : MQ → MQ) : M unit := call (λ mq, (tt, f mq)).

Definition logging (l : level) (format : string) (args : list string)
    : M unit :=
  λ b, (Return tt,
        mkBroker (messages b) (tasks b) (name b)
          (log b ++ [Log l format args])%list).

(** [Broker.__init__] *)
Definition __init__ (message_queue : MQ) : Broker :=
  {| messages := message_queue;
     tasks := {[ stop_task_name := _stop_task ]};
     name := mq_name message_queue;
     log := [] |}.

(** [Broker.url] *)
Definition url (b : Broker) : string := mq_url (messages b).

(** What [expose] accepts: a [TaskSpace], given by its [tasks] mapping in
    iteration order, or a task callable. *)
Inductive exposable :=
  | ATaskSpace (space_tasks : list (string * callable))
  | ACallable (f : callable).

Definition set_task (task_name : string) (func : callable) : M unit :=
  λ b, (Return tt,
        mkBroker (messages b) (<[task_name := func]> (tasks b)) (name b) (log b)).

Fixpoint expose_loop (items : list (string * callable)) : M unit :=
  match items with
  | [] => ret tt
  | (task_name, func) :: rest =>
      let* b := self in
      if decide (task_name ∈ dom (tasks b)) then
        raise (ValueError ("task " ++ repr task_name
                           ++ " conflicts with existing task"))
      else
        let* _ := set_task task_name func in
        expose_loop rest
  end.

(** [Broker.expose] *)
Definition expose (obj : exposable) : M unit :=
  let space :=
    match obj with
    | ATaskSpace space_tasks => space_tasks
    | ACallable f => [(callable_name f, f)]
    end in
  expose_loop space.

(** [Broker.serialize] and [Broker.deserialize]. [loads] of something
    that is not a string raises [TypeError]; the text of that error is not
    modelled. *)
Definition serialize (obj : object) : value := VStr (dumps obj).

Definition deserialize (message : value) : M object :=
  match message with
  | VStr s =>
      match loads s with
      | Return obj => ret obj
      | Raise e => raise e
      end
  | _ => raise (TypeError "must be string")
  end.

(** [Broker.discard_pending_tasks] *)
Definition discard_pending_tasks : M unit := call_ discard_pending.

(** [Broker.enqueue] *)
Definition enqueue (task : Task.t) : M (option DeferredResult.t) :=
  let* b := self in
  let queue := name b in
  let options := Task.options task in
  let unknown_options := dom options ∖ task_options in
  if decide (unknown_options ≠ ∅) then
    raise (ValueError ("unrecognized task options: "
                       ++ String.concat ", " (elements unknown_options)))
  else
    let* _ := logging DEBUG "enqueue %s [%s:%s]"
                [Task.name task; queue; Task.id task] in
    let message := serialize (OTask task) in
    let result :=
      if truthy (default (VBool false) (options !! "result_status"))
         || bool_decide ("result_timeout" ∈ dom options)
      then Some (DeferredResult.mk (name b) (Task.id task) (Task.name task)
                   (Task.heartrate task))
      else None in
    let* _ := call_ (enqueue_task (Task.id task) message result) in
    ret result.

(** [Broker.stop].  The stop task has no options, so [enqueue] reads
    neither its heartrate nor its result timeout. *)
Definition stop : M unit :=
  let stop := Task.mk stop_task_name "stop" [] ∅ 0 None in
  let* _ := enqueue stop in
  ret tt.

(** [Broker.set_status] *)
Definition set_status (task : Task.t) (v : object) : M unit :=
  let message :=
    match v with
    | OValue x => if STATUS_VALUES x then x else serialize v
    | OTask _ => serialize v
    end in
  call_ (mq_set_status (Task.id task) message).

(** [Broker.status]; the Python [None] it returns is [OValue VNone]. *)
Definition status `{Identified R} (result : R) : M object :=
  let* message := call (mq_get_status (id_of result)) in
  match message with
  | None => ret (OValue VNone)
  | Some message =>
      if STATUS_VALUES message then ret (OValue message)
      else deserialize message
  end.

(** [Broker.next_task] *)
Definition next_task (timeout : timeout) : M object :=
  let* message := call (get timeout) in
  match message with
  | None => ret (OValue VNone)
  | Some (task_id, message) =>
      try_except (deserialize message) is_Exception
        (λ _,
           let* b := self in
           let* _ := logging ERROR "cannot deserialize task [%s:%s]"
                       [name b; task_id] in
           ret (OValue VNone))
  end.

(** [Broker.heartbeat] *)
Definition heartbeat (task : Task.t) : M unit :=
  call_ (set_task_timeout (Task.id task) (Task.heartrate task * 2 + 5)).

(** [Broker.set_result] *)
Definition set_result (task : Task.t) (result : object) : M unit :=
  let message := serialize result in
  call_ (mq_set_result (Task.id task) message (Task.result_timeout task)).

(** [Broker.pop_result] *)
Definition pop_result `{Identified T} (task : T) (timeout : timeout)
    : M object :=
  if py_lt timeout 0 then
    raise (ValueError "negative timeout not supported")
  else
    let* message := call (mq_pop_result (id_of task) timeout) in
    match message with
    | None => raise (KeyError (id_of task))
    | Some message =>
        let* result :=
          match message with
          | TASK_EXPIRED => ret (OValue message)
          | _ => deserialize message
          end in
        match result with
        | OValue TASK_EXPIRED =>
            let* b := self in
            raise (TaskExpired (name_of task) (name b) (id_of task)
                     "task expired before a result was returned")
        | _ => ret result
        end
    end.

(** [Broker.task_failed] *)
Definition task_failed (task : Task.t) : M unit :=
  call_ (discard_result (Task.id task) (serialize (OValue TASK_EXPIRED))).

(** [Broker.init_taskset] *)
Definition init_taskset (taskset : TaskSet.t) : M DeferredResult.t :=
  let* b := self in
  let result := DeferredResult.mk (name b) (TaskSet.id taskset)
                  (TaskSet.name taskset) (TaskSet.heartrate taskset) in
  let* _ := call_ (mq_init_taskset (TaskSet.id taskset) result) in
  ret result.

(** [task.invoke(broker)] for whatever object was dequeued
    ([worq.task]). *)
Variable task_invoke : object → M unit.

(** [Broker.invoke] *)
Definition invoke (task : object) : M unit := task_invoke task.

(** The [while True] loop of [start_worker].  [None] means that [fuel]
    iterations did not leave the loop. *)
Fixpoint worker_loop (fuel : nat) (max_wait : timeout) (b : Broker)
    : option (result unit * Broker) :=
  match fuel with
  | O => None
  | S fuel =>
      match next_task max_wait b with
      | (Raise e, b') => Some (Raise e, b')
      | (Return (OValue VNone), b') => Some (Return tt, b')
      | (Return task, b') =>
          match task_invoke task b' with
          | (Raise e, b'') => Some (Raise e, b'')
          | (Return _, b'') => worker_loop fuel max_wait b''
          end
      end
  end.

(** [Broker.start_worker] *)
Definition start_worker (fuel : nat) (max_wait : timeout) (b : Broker)
    : option (result unit * Broker) :=
  match worker_loop fuel max_wait b with
  | None => None
  | Some (Raise e, b') =>
      if is_StopWorker e then Some (logging INFO "worker stopped" [] b')
      else Some (Raise e, b')
  | Some (Return _, b') => Some (Return tt, b')
  end.

(** [n] rounds of the worker loop in which a task is pulled and its
    invocation returns. *)
Inductive rounds (max_wait : timeout) : nat → Broker → Broker → Prop :=
  | rounds_O b : rounds max_wait 0 b b
  | rounds_S n b task b1 b2 b3 :
      next_task max_wait b = (Return task, b1) →
      task ≠ OValue VNone →
      task_invoke task b1 = (Return tt, b2) →
      rounds max_wait n b2 b3 →
      rounds max_wait (S n) b b3.

(** The operations of a broker, and the brokers that can arise from
    [Broker.__init__] by calling them. *)
Inductive operation :=
  | Expose (obj : exposable)
  | StartWorker (fuel : nat) (max_wait : timeout)
  | Stop
  | DiscardPendingTasks
  | Enqueue (task : Task.t)
  | SetStatus (task : Task.t) (v : object)
  | Status (r : DeferredResult.t)
  | NextTask (timeout : timeout)
  | Invoke (task : object)
  | Heartbeat (task : Task.t)
  | SetResult (task : Task.t) (r : object)
  | PopResult (r : DeferredResult.t) (timeout : timeout)
  | TaskFailed (task : Task.t)
  | InitTaskset (taskset : TaskSet.t).

Definition after (op : operation) (b : Broker) : option Broker :=
  match op with
  | Expose obj => Some (expose obj b).2
  | StartWorker fuel max_wait => snd <$> start_worker fuel max_wait b
  | Stop => Some (stop b).2
  | DiscardPendingTasks => Some (discard_pending_tasks b).2
  | Enqueue task => Some (enqueue task b).2
  | SetStatus task v => Some (set_status task v b).2
  | Status r => Some (status r b).2
  | NextTask timeout => Some (next_task timeout b).2
  | Invoke task => Some (invoke task b).2
  | Heartbeat task => Some (heartbeat task b).2
  | SetResult task r => Some (set_result task r b).2
  | PopResult r timeout => Some (pop_result r timeout b).2
  | TaskFailed task => Some (task_failed task b).2
  | InitTaskset taskset => Some (init_taskset taskset b).2
  end.

(** The stop task is registered under its reserved name. *)
Definition has_stop_task (b : Broker) : Prop :=
  tasks b !! stop_task_name = Some _stop_task.

(** The names under which [expose] registers the tasks of [obj]. *)
Definition exposed_names (obj : exposable) : list string :=
  match obj with
  | ATaskSpace space_tasks => space_tasks.*1
  | ACallable f => [callable_name f]
  end.

(** The [space.tasks] mapping that [expose] iterates over, in iteration
    order. *)
Definition exposed_tasks (obj : exposable) : list (string * callable) :=
  match obj with
  | ATaskSpace space_tasks => space_tasks
  | ACallable f => [(callable_name f, f)]
  end.

(** A computation that leaves the task registry as it is. *)
Definition keeps_tasks {A} (m : M A) : Prop :=
  ∀ b, tasks (m b).2 = tasks b.

Inductive reachable : Broker → Prop :=
  | reachable_init message_queue : reachable (__init__ message_queue)
  | reachable_after op b b' :
      reachable b → after op b = Some b' → reachable b'.

End Broker.

(** ** A reference backend and codec

    The repository's queue backends and [worq.task] are not part of
    [worq/core.py].  The definitions of this module instantiate the
    interfaces above, so that the statements about an arbitrary backend can
    be run on a concrete one. *)

Module Memory.

(** Modelled from the spec: an implementation of [AbstractMessageQueue]
    (the source has only the abstract class), following the eight
    contracts of the backend.  [results] maps a task id to its result
    slot: [None] for a placeholder without a result, [Some m] for the
    stored message.  Time does not pass in this model: a wait returns
    what is there, and expiry clocks are recorded but never fire. *)
Record t := mk {
  url : string;
  name : string;
  queue : list (string * value);
  results : gmap string (option value);
  timeouts : gmap string timeout;
  statuses : gmap string value;
  tasksets : gmap string (list value)
}.

Definition empty (u n : string) : t := mk u n [] ∅ ∅ ∅ ∅.

(** Modelled from the spec: [enqueue_task] creates the result placeholder,
    if a result is tracked, and makes the task visible to dequeuers. *)
Definition enqueue_task (task_id : string) (message : value)
    (result : option DeferredResult.t) (q : t) : t :=
  mk (url q) (name q) (queue q ++ [(task_id, message)])%list
     (match result with
      | Some _ => <[task_id := None]> (results q)
      | None => results q
      end)
     (timeouts q) (statuses q) (tasksets q).

(** Modelled from the spec: [get] removes and returns one [(id, message)]
    pair, or [None] when no task is there. *)
Definition get (timeout : timeout) (q : t) : option (string * value) * t :=
  match queue q with
  | [] => (None, q)
  | m :: rest =>
      (Some m, mk (url q) (name q) rest (results q) (timeouts q)
                  (statuses q) (tasksets q))
  end.

(** Modelled from the spec: [discard_pending] clears the pending queue
    and nothing else. *)
Definition discard_pending (q : t) : t :=
  mk (url q) (name q) [] (results q) (timeouts q) (statuses q) (tasksets q).

(** Modelled from the spec: [set_task_timeout] (re)arms the expiry clock
    of the result placeholder. *)
Definition set_task_timeout (task_id : string) (seconds : Z) (q : t) : t :=
  mk (url q) (name q) (queue q) (results q)
     (<[task_id := Some seconds]> (timeouts q)) (statuses q) (tasksets q).

(** Modelled from the spec: [set_status] and [get_status] are a
    last-write-wins keyed store, independent of the result store. *)
Definition set_status (task_id : string) (message : value) (q : t) : t :=
  mk (url q) (name q) (queue q) (results q) (timeouts q)
     (<[task_id := message]> (statuses q)) (tasksets q).

Definition get_status (task_id : string) (q : t) : option value * t :=
  (statuses q !! task_id, q).

(** Modelled from the spec: [set_result] stores the final result with an
    expiry. *)
Definition set_result (task_id : string) (message : value)
    (timeout : timeout) (q : t) : t :=
  mk (url q) (name q) (queue q) (<[task_id := Some message]> (results q))
     (<[task_id := timeout]> (timeouts q)) (statuses q) (tasksets q).

(** Modelled from the spec: [pop_result] reads and removes the result;
    a placeholder without a result gives [None]. *)
Definition pop_result (task_id : string) (timeout : timeout) (q : t)
    : option value * t :=
  match results q !! task_id with
  | Some (Some message) =>
      (Some message,
       mk (url q) (name q) (queue q) (delete task_id (results q))
          (timeouts q) (statuses q) (tasksets q))
  | _ => (None, q)
  end.

(** Modelled from the spec: [discard_result] forces the stored result to
    the expiry token it is given. *)
Definition discard_result (task_id : string) (task_expired_token : value)
    (q : t) : t :=
  mk (url q) (name q) (queue q)
     (<[task_id := Some task_expired_token]> (results q))
     (timeouts q) (statuses q) (tasksets q).

(** Modelled from the spec: [init_taskset] allocates the result
    placeholder of the task set and an empty collection. *)
Definition init_taskset (taskset_id : string) (result : DeferredResult.t)
    (q : t) : t :=
  mk (url q) (name q) (queue q) (<[taskset_id := None]> (results q))
     (timeouts q) (statuses q) (<[taskset_id := []]> (tasksets q)).

(** Modelled from the spec: each call appends one subtask result, and
    only the call which brings the accumulated count to exactly
    [num_tasks] receives the full list of collected messages; all other
    calls receive an absent value. *)
Definition update_taskset (taskset_id : string) (num_tasks : Z)
    (message : value) (timeout : timeout) (q : t)
    : option (list value) * t :=
  let messages := (default [] (tasksets q !! taskset_id) ++ [message])%list in
  (if (Z.of_nat (length messages) =? num_tasks)%Z then Some messages
   else None,
   mk (url q) (name q) (queue q) (results q)
      (<[taskset_id := timeout]> (timeouts q)) (statuses q)
      (<[taskset_id := messages]> (tasksets q))).

#[global] Instance message_queue : AbstractMessageQueue t :=
  Build_AbstractMessageQueue t url name enqueue_task get discard_pending
    set_task_timeout set_status get_status set_result pop_result
    discard_result init_taskset update_taskset.

(** The messages collected so far for a task set. *)
Definition collected (tid : string) (q : t) : list value :=
  default [] (tasksets q !! tid).

(** One caller's [update_taskset(taskset_id, num_tasks, message, timeout)]. *)
Record update := Update {
  taskset_id : string;
  num_tasks : Z;
  message : value;
  expires : timeout
}.

(** The calls of several callers, in the order in which the backend
    serves them, each paired with what it was returned. *)
Fixpoint run_updates (calls : list update) (q : t)
    : list (update * option (list value)) * t :=
  match calls with
  | [] => ([], q)
  | c :: calls =>
      let '(r, q1) :=
        update_taskset (taskset_id c) (num_tasks c) (message c) (expires c) q in
      let '(trace, q2) := run_updates calls q1 in
      ((c, r) :: trace, q2)
  end.

(** The messages submitted for one task set, in arrival order. *)
Definition submitted (tid : string) (calls : list update) : list value :=
  message <$> filter (λ c, taskset_id c = tid) calls.

(** The lists handed back to callers of one task set. *)
Definition completions (tid : string)
    (trace : list (update * option (list value))) : list (list value) :=
  omap (λ cr, if decide (taskset_id cr.1 = tid) then cr.2 else None) trace.

End Memory.

Module Pickle.

(** Modelled from the spec: the serialization codec is an external
    collaborator ("any byte-exact codec is acceptable as long as
    round-trip fidelity holds").  This one is a tagged text format for
    [None], booleans, strings, [TASK_EXPIRED] and tasks that carry
    nothing but a name and an id; [loads] rejects everything else. *)
Fixpoint unary (n : nat) : string :=
  match n with
  | O => "0"
  | S n => String "1"%char (unary n)
  end.

Fixpoint read_unary (s : string) : option (nat * string) :=
  match s with
  | String "0"%char rest => Some (O, rest)
  | String "1"%char rest =>
      match read_unary rest with
      | Some (n, rest) => Some (S n, rest)
      | None => None
      end
  | _ => None
  end.

Definition bare (t : Task.t) : bool :=
  bool_decide (Task.args t = [])
  && bool_decide (dom (Task.options t) = (∅ : gset string))
  && bool_decide (Task.heartrate t = 0%Z)
  && bool_decide (Task.result_timeout t = None).

Definition dumps (obj : object) : string :=
  match obj with
  | OValue VNone => "N"
  | OValue (VBool true) => "T"
  | OValue (VBool false) => "F"
  | OValue (VStr s) => String "S"%char s
  | OValue TASK_EXPIRED => "X"
  | OValue (VInt _) => "?"
  | OTask t =>
      if bare t then
        String "K"%char
          (unary (String.length (Task.id t)) ++ Task.id t ++ Task.name t)
      else "?"
  end.

(** [loads] raises [EOFError] on an empty message and [UnpicklingError]
    on anything it cannot read.  As with a real pickle, a message can name
    a callable to be applied while it is loaded: the message ["R"]
    followed by the name of the stop task applies [_stop_task], which
    raises the stop signal. *)
Definition loads (s : string) : result object :=
  match s with
  | "" => Raise EOFError
  | String "N"%char "" => Return (OValue VNone)
  | String "T"%char "" => Return (OValue (VBool true))
  | String "F"%char "" => Return (OValue (VBool false))
  | String "X"%char "" => Return (OValue TASK_EXPIRED)
  | String "S"%char s => Return (OValue (VStr s))
  | String "K"%char rest =>
      match read_unary rest with
      | Some (n, rest) =>
          if (n <=? String.length rest)%nat then
            Return (OTask (Task.mk
                             (String.substring n (String.length rest - n) rest)
                             (String.substring 0 n rest) [] ∅ 0 None))
          else Raise UnpicklingError
      | None => Raise UnpicklingError
      end
  | String "R"%char callee =>
      if String.eqb callee stop_task_name then Raise StopWorker
      else Raise UnpicklingError
  | _ => Raise UnpicklingError
  end.

End Pickle.

Module Fixture.

(** Modelled from the spec: the status enumeration of [worq.const]
    ("a small fixed set of sentinel values (e.g. pending/started/etc.)"). *)
Definition STATUS_VALUES (v : value) : bool :=
  match v with
  | VStr s => bool_decide (s ∈ ({[ "pending"; "started" ]} : gset string))
  | _ => false
  end.

(** Task callables: the stop task of [worq/core.py] and named functions. *)
Inductive callable :=
  | StopTask
  | Function (func_name : string).

Definition callable_name (f : callable) : string :=
  match f with
  | StopTask => "_stop_task"
  | Function func_name => func_name
  end.

Definition broker : Type := Broker (MQ := Memory.t) (callable := callable).

(** Modelled from the spec: [task.invoke(broker)] of [worq.task].
    Invoking the task registered as the stop task raises the stop signal
    ([_stop_task] raises [_StopWorker]); any other task reports its
    outcome itself and [invoke] returns.  An object that is not a task
    has no [invoke]. *)
Definition task_invoke (task : object) : M (MQ := Memory.t) unit :=
  match task with
  | OTask t =>
      λ b, match tasks b !! Task.name t with
           | Some StopTask => (Raise StopWorker, b)
           | _ => (Return tt, b)
           end
  | OValue _ => raise (AttributeError "invoke")
  end.

(** A broker on an empty in-memory queue. *)
Definition fresh : broker :=
  __init__ StopTask (Memory.empty "memory://" "default").

(** Sample tasks: one that keeps its result for a minute, one with
    [result_status] switched off, one with an option the broker does not
    know, and one without options. *)
Definition tracked_task : Task.t :=
  Task.mk "add" "t1" [VInt 1; VInt 2] {[ "result_timeout" := VInt 60 ]}
    30 (Some 60%Z).

Definition untracked_task : Task.t :=
  Task.mk "add" "t2" [VInt 1; VInt 2] {[ "result_status" := VBool false ]}
    30 None.

Definition misconfigured_task : Task.t :=
  Task.mk "add" "t3" [] {[ "retries" := VInt 3; "heartrate" := VInt 5 ]}
    5 None.

Definition bare_task : Task.t := Task.mk "noop" "t4" [] ∅ 0 None.

(** A task space with two functions. *)
Definition arithmetic : exposable (callable := callable) :=
  ATaskSpace [("add", Function "add"); ("mul", Function "mul")].

(** Three updates served in this order, two of them for the task set
    ["ts"] of size two. *)
Definition updates : list Memory.update :=
  [ Memory.Update "ts" 2 (VStr "a") None;
    Memory.Update "other" 5 (VStr "x") None;
    Memory.Update "ts" 2 (VStr "b") None ].

End Fixture.

(** * Properties *)

Lemma requests_tracking_spec (options : gmap string value) :
  truthy (default (VBool false) (options !! "result_status"))
  || bool_decide ("result_timeout" ∈ dom options) = true
  ↔ requests_tracking options.
Proof.
  unfold requests_tracking.
  rewrite orb_true_iff, bool_decide_eq_true, elem_of_dom. split.
  - intros [Hs | Ht]; [left | by right].
    destruct (options !! "result_status") as [v|]; [eauto | discriminate].
  - intros [(v & Hv & Htrue) | Ht]; [left | by right].
    by rewrite Hv.
Qed.

Section Properties.
Context {MQ : Type} `{!AbstractMessageQueue MQ} {callable : Type}.
Variable _stop_task : callable.
Variable callable_name : callable → string.
Variable dumps : object → string.
Variable loads : string → result object.
Variable STATUS_VALUES : value → bool.
Variable task_invoke : object → M (MQ := MQ) (callable := callable) unit.

Implicit Types (b : Broker (MQ := MQ) (callable := callable)).
Implicit Types (task : Task.t).

(** ** Submission *)

Lemma enqueue_valid task b :
  dom (Task.options task) ⊆ task_options →
  let result :=
    if truthy (default (VBool false) (Task.options task !! "result_status"))
       || bool_decide ("result_timeout" ∈ dom (Task.options task))
    then Some (DeferredResult.mk (name b) (Task.id task) (Task.name task)
                 (Task.heartrate task))
    else None in
  enqueue dumps task b =
    (Return result,
     mkBroker
       (enqueue_task (Task.id task) (serialize dumps (OTask task)) result
          (messages b))
       (tasks b) (name b)
       (log b ++ [Log DEBUG "enqueue %s [%s:%s]"
                    [Task.name task; name b; Task.id task]])).
Proof.
  intros Hvalid. unfold enqueue, bind, self. simpl.
  destruct (decide (dom (Task.options task) ∖ task_options ≠ ∅)) as [Hne|_].
  { contradict Hne. apply elem_of_equiv_empty_L. intros k.
    rewrite elem_of_difference. intros [Hin Hout]. by apply Hout, Hvalid. }
  reflexivity.
Qed.

(** C1, as amended.  For a task with valid options, [Broker.enqueue]
    returns a [DeferredResult] exactly when the options request result
    tracking, that is when [result_status] is set to a true value or
    [result_timeout] is present; the handle carries the task's id, name
    and heartrate, and what the backend's [enqueue_task] receives as
    result placeholder is the returned value itself, so without tracking
    it receives [None]. *)
Theorem enqueue_handle_iff_tracking task b :
  dom (Task.options task) ⊆ task_options →
  ∃ result,
    (enqueue dumps task b).1 = Return result
    ∧ (is_Some result ↔ requests_tracking (Task.options task))
    ∧ (∀ d, result = Some d →
         DeferredResult.id d = Task.id task
         ∧ DeferredResult.name d = Task.name task
         ∧ DeferredResult.heartrate d = Task.heartrate task)
    ∧ messages (enqueue dumps task b).2 =
        enqueue_task (Task.id task) (serialize dumps (OTask task)) result
          (messages b).
Proof.
  intros Hvalid. rewrite (enqueue_valid task b Hvalid). simpl.
  eexists. split; [reflexivity|].
  rewrite <- requests_tracking_spec.
  destruct (truthy _ || bool_decide _); simpl.
  - split; [split; eauto|]. split; [|reflexivity]. by intros d [= <-].
  - split; [split; [by intros [? ?]|discriminate]|]. split; [|reflexivity].
    discriminate.
Qed.

(** C5.  When the options of a task contain a key outside
    [Broker.task_options], [Broker.enqueue] raises [ValueError] with a
    message that lists exactly the offending keys, and the broker, its
    message queue included, is left as it was: the backend is not
    called and nothing is logged. *)
Theorem enqueue_unrecognized_option task b (k : string) :
  k ∈ dom (Task.options task) →
  k ∉ task_options →
  ∃ keys,
    enqueue dumps task b =
      (Raise (ValueError ("unrecognized task options: "
                          ++ String.concat ", " keys)), b)
    ∧ NoDup keys
    ∧ ∀ k', k' ∈ keys ↔ k' ∈ dom (Task.options task) ∧ k' ∉ task_options.
Proof.
  intros Hin Hout. exists (elements (dom (Task.options task) ∖ task_options)).
  split; [|split].
  - unfold enqueue, bind, self. simpl.
    destruct (decide (dom (Task.options task) ∖ task_options ≠ ∅))
      as [_|Hempty]; [reflexivity|].
    contradict Hempty. intros Heq.
    apply (not_elem_of_empty (C := gset string) k). rewrite <- Heq.
    by apply elem_of_difference.
  - apply NoDup_elements.
  - intros k'. by rewrite elem_of_elements, elem_of_difference.
Qed.

(** ** Results *)

Lemma deserialize_pure (message : value) b :
  (deserialize loads message b).2 = b.
Proof.
  unfold deserialize. destruct message; try reflexivity.
  by destruct (loads s).
Qed.

(** A message that is a string is handed to [loads]; what [loads]
    returns or raises is what [deserialize] returns or raises. *)
Lemma deserialize_string (s : string) b :
  deserialize loads (VStr s) b = (loads s, b).
Proof. unfold deserialize. by destruct (loads s). Qed.

(** A message that is not a string makes [loads] raise [TypeError]. *)
Lemma deserialize_not_string (message : value) b :
  (∀ s, message ≠ VStr s) →
  ∃ msg, deserialize loads message b = (Raise (TypeError msg), b).
Proof.
  intros Hmessage. destruct message as [| | |s|]; try by eexists.
  by destruct (Hmessage s).
Qed.

Lemma pop_result_negative `{Identified T} (task : T) (t : Z) b :
  (t < 0)%Z →
  pop_result loads task (Some t) b =
    (Raise (ValueError "negative timeout not supported"), b).
Proof.
  intros Hneg. unfold pop_result, py_lt.
  by rewrite (proj2 (Z.ltb_lt t 0) Hneg).
Qed.

(** What [pop_result] does with the reply of the backend once the
    timeout has passed the check. *)
Lemma pop_result_reply `{Identified T} (task : T) timeout b reply mq' :
  py_lt timeout 0 = false →
  mq_pop_result (id_of task) timeout (messages b) = (reply, mq') →
  pop_result loads task timeout b =
    match reply with
    | None => (Raise (KeyError (id_of task)), with_messages b mq')
    | Some message =>
        match (match message with
               | TASK_EXPIRED => Return (OValue message)
               | _ => (deserialize loads message (with_messages b mq')).1
               end) with
        | Return (OValue TASK_EXPIRED) =>
            (Raise (TaskExpired (name_of task) (name b) (id_of task)
                      "task expired before a result was returned"),
             with_messages b mq')
        | Return obj => (Return obj, with_messages b mq')
        | Raise e => (Raise e, with_messages b mq')
        end
    end.
Proof.
  intros Hok Hreply. unfold pop_result. rewrite Hok.
  unfold bind at 1. unfold call. rewrite Hreply.
  fold (with_messages b mq').
  destruct reply as [message|]; [|reflexivity].
  unfold bind, self, raise, ret.
  destruct message as [| | |s|]; simpl; try reflexivity.
  destruct (loads s) as [[[]|]|]; reflexivity.
Qed.

(** C2, at its failing input.  A [timeout] of [None] does not reach the
    backend: [None < 0] holds in Python 2, so [Broker.pop_result] raises
    the [ValueError] meant for negative timeouts and leaves the broker
    and its queue untouched. *)
Theorem pop_result_None_timeout `{Identified T} (task : T) b :
  pop_result loads task None b =
    (Raise (ValueError "negative timeout not supported"), b).
Proof. reflexivity. Qed.

(** C3, as amended.  Once the timeout is accepted, [Broker.pop_result]
    raises [KeyError] on the task id when the backend has no message;
    raises [TaskExpired] with the task name, the queue name, the task id
    and a cause when the message is the expiry sentinel or deserializes
    to it; and returns the deserialized result when the message
    deserializes to anything else.  The two exceptions differ. *)
Theorem pop_result_outcomes `{Identified T} (task : T) timeout b reply mq' :
  py_lt timeout 0 = false →
  mq_pop_result (id_of task) timeout (messages b) = (reply, mq') →
  let expired :=
    TaskExpired (name_of task) (name b) (id_of task)
      "task expired before a result was returned" in
  (reply = None →
     pop_result loads task timeout b =
       (Raise (KeyError (id_of task)), with_messages b mq'))
  ∧ (∀ message,
       reply = Some message →
       message = TASK_EXPIRED
       ∨ (∃ s, message = VStr s ∧ loads s = Return (OValue TASK_EXPIRED)) →
       pop_result loads task timeout b =
         (Raise expired, with_messages b mq'))
  ∧ (∀ s obj,
       reply = Some (VStr s) →
       loads s = Return obj →
       obj ≠ OValue TASK_EXPIRED →
       pop_result loads task timeout b = (Return obj, with_messages b mq'))
  ∧ KeyError (id_of task) ≠ expired.
Proof.
  intros Hok Hreply expired.
  rewrite (pop_result_reply task timeout b reply mq' Hok Hreply).
  split; [|split; [|split]].
  - by intros ->.
  - intros message -> [-> | (s & -> & Hs)]; [reflexivity|].
    simpl. by rewrite Hs.
  - intros s obj -> Hs Hobj. simpl. rewrite Hs. simpl.
    destruct obj as [[]|]; try reflexivity. by destruct Hobj.
  - discriminate.
Qed.

(** Expiry after failure, for a numeric timeout.  After
    [Broker.task_failed], a [pop_result] for the same task id with a
    timeout that passes the check raises [TaskExpired].  The backend is any
    queue that honours the contract of [discard_result] (a [pop_result]
    after it returns a task expired response: the token it was given, or
    the sentinel), and the codec reads the serialized sentinel back. *)
Theorem task_failed_then_pop_result `{Identified R}
    task (r : R) (t : Z) b :
  (∀ mq task_id token timeout,
     let reply := (mq_pop_result task_id timeout
                     (discard_result task_id token mq)).1 in
     reply = Some token ∨ reply = Some TASK_EXPIRED) →
  loads (dumps (OValue TASK_EXPIRED)) = Return (OValue TASK_EXPIRED) →
  id_of r = Task.id task →
  (0 ≤ t)%Z →
  (pop_result loads r (Some t) (task_failed dumps task b).2).1 =
    Raise (TaskExpired (name_of r) (name b) (Task.id task)
             "task expired before a result was returned").
Proof.
  intros Hcontract Hcodec Hid Ht.
  set (b1 := (task_failed dumps task b).2).
  destruct (mq_pop_result (id_of r) (Some t) (messages b1))
    as [reply mq'] eqn:Hreply.
  assert (Hok : py_lt (Some t) 0 = false) by by apply Z.ltb_ge.
  rewrite (pop_result_reply r (Some t) b1 reply mq' Hok Hreply).
  assert (Hcases : reply = Some (serialize dumps (OValue TASK_EXPIRED))
                   ∨ reply = Some TASK_EXPIRED).
  { specialize (Hcontract (messages b) (Task.id task)
                  (serialize dumps (OValue TASK_EXPIRED)) (Some t)).
    simpl in Hcontract. subst b1. unfold task_failed, call_, call in Hreply.
    simpl in Hreply. rewrite Hid in Hreply. rewrite Hreply in Hcontract.
    exact Hcontract. }
  rewrite <- Hid.
  destruct Hcases as [-> | ->]; simpl; [by rewrite Hcodec | reflexivity].
Qed.

(** C4, at its failing input.  A waiter that asks to wait indefinitely
    for the result of a failed task is not told that the task expired:
    after [Broker.task_failed], [Broker.pop_result] with a [timeout] of
    [None] raises the [ValueError] of the timeout check, on every backend,
    and does not consult the backend. *)
Theorem task_failed_then_pop_result_None `{Identified R} task (r : R) b :
  pop_result loads r None (task_failed dumps task b).2 =
    (Raise (ValueError "negative timeout not supported"),
     (task_failed dumps task b).2)
  ∧ ∀ cause,
      (pop_result loads r None (task_failed dumps task b).2).1
      ≠ Raise (TaskExpired (name_of r) (name b) (Task.id task) cause).
Proof. by split. Qed.

(** ** Status *)

(** C6.  Over a backend whose status store returns what was last written
    for an id, and a codec that reads [v] back, [Broker.status] after
    [Broker.set_status task v] returns [v] for a handle with the id of
    [task].  A member of [STATUS_VALUES] is handed to the backend as it
    is, any other value as its serialization (which is itself no member
    of [STATUS_VALUES]); and [status] returns [None] when the backend has
    no status for the id. *)
Theorem status_round_trip `{Identified R} task (r : R) (v : object) b :
  (∀ task_id message mq,
     (mq_get_status task_id (mq_set_status task_id message mq)).1
     = Some message) →
  id_of r = Task.id task →
  (in_STATUS_VALUES STATUS_VALUES v = false →
     loads (dumps v) = Return v ∧ STATUS_VALUES (VStr (dumps v)) = false) →
  let b1 := (set_status dumps STATUS_VALUES task v b).2 in
  (status loads STATUS_VALUES r b1).1 = Return v
  ∧ (∀ x, v = OValue x → STATUS_VALUES x = true →
       messages b1 = mq_set_status (Task.id task) x (messages b))
  ∧ (in_STATUS_VALUES STATUS_VALUES v = false →
       messages b1 = mq_set_status (Task.id task) (VStr (dumps v)) (messages b))
  ∧ (∀ b0, (mq_get_status (id_of r) (messages b0)).1 = None →
       (status loads STATUS_VALUES r b0).1 = Return (OValue VNone)).
Proof.
  intros Hstore Hid Hcodec b1.
  assert (Hread : ∀ message,
            messages b1 = mq_set_status (Task.id task) message (messages b) →
            (status loads STATUS_VALUES r b1).1 =
              if STATUS_VALUES message then Return (OValue message)
              else (deserialize loads message b1).1).
  { intros message Hb1. unfold status, bind, call. rewrite Hid.
    pose proof (Hstore (Task.id task) message (messages b)) as Hget.
    rewrite <- Hb1 in Hget.
    destruct (mq_get_status (Task.id task) (messages b1)) as [reply mq'].
    simpl in Hget. subst reply.
    destruct (STATUS_VALUES message); [reflexivity|].
    unfold deserialize. destruct message; try reflexivity.
    by destruct (loads s). }
  split; [|split; [|split]].
  - destruct v as [x|t]; simpl in Hcodec.
    + destruct (STATUS_VALUES x) eqn:Hx.
      * rewrite (Hread x).
        -- by rewrite Hx.
        -- subst b1. unfold set_status, call_, call. simpl. by rewrite Hx.
      * destruct (Hcodec eq_refl) as [Hloads Hfresh].
        rewrite (Hread (VStr (dumps (OValue x)))).
        -- rewrite Hfresh. simpl. by rewrite Hloads.
        -- subst b1. unfold set_status, call_, call. simpl. by rewrite Hx.
    + destruct (Hcodec eq_refl) as [Hloads Hfresh].
      rewrite (Hread (VStr (dumps (OTask t)))).
      * rewrite Hfresh. simpl. by rewrite Hloads.
      * reflexivity.
  - intros x -> Hx. subst b1. unfold set_status, call_, call. simpl.
    by rewrite Hx.
  - intros Hv. subst b1. unfold set_status, call_, call.
    destruct v as [x|t]; simpl in *; [by rewrite Hv | reflexivity].
  - intros b0 Hnone. unfold status, bind, call.
    destruct (mq_get_status (id_of r) (messages b0)) as [reply mq'].
    simpl in Hnone. by subst reply.
Qed.

(** ** Dequeue *)

(** What [next_task] does with the reply of the backend. *)
Lemma next_task_reply timeout b reply mq' :
  get timeout (messages b) = (reply, mq') →
  next_task loads timeout b =
    match reply with
    | None => (Return (OValue VNone), with_messages b mq')
    | Some (task_id, message) =>
        match (deserialize loads message (with_messages b mq')).1 with
        | Return obj => (Return obj, with_messages b mq')
        | Raise e =>
            if is_Exception e then
              (Return (OValue VNone),
               with_log (with_messages b mq')
                 (Log ERROR "cannot deserialize task [%s:%s]"
                    [name b; task_id]))
            else (Raise e, with_messages b mq')
        end
    end.
Proof.
  intros Hget. unfold next_task. unfold bind at 1. unfold call. rewrite Hget.
  fold (with_messages b mq').
  destruct reply as [[task_id message]|]; [|reflexivity].
  unfold try_except.
  pose proof (deserialize_pure message (with_messages b mq')) as Hpure.
  destruct (deserialize loads message (with_messages b mq')) as [[obj|e] b''];
    simpl in Hpure; subst b''; [reflexivity|].
  cbn [fst]. destruct (is_Exception e); reflexivity.
Qed.

(** C7, as amended.  [Broker.next_task] returns [None] when the backend's
    [get] timed out; the object that [loads] returns when the dequeued
    message deserializes; and [None] when deserializing it raises an
    [Exception] (the message is not a string, or [loads] raises one), in
    which case one error record with the queue name and the task id has
    been logged.  An exception of [loads] that is not an [Exception] is not
    caught: [next_task] raises it.  So whatever [next_task] raises is
    outside the [Exception] hierarchy. *)
Theorem next_task_contains_exceptions timeout b reply mq' :
  get timeout (messages b) = (reply, mq') →
  let b' := with_messages b mq' in
  let logged task_id :=
    with_log b' (Log ERROR "cannot deserialize task [%s:%s]"
                   [name b; task_id]) in
  (reply = None →
     next_task loads timeout b = (Return (OValue VNone), b'))
  ∧ (∀ task_id s obj,
       reply = Some (task_id, VStr s) →
       loads s = Return obj →
       next_task loads timeout b = (Return obj, b'))
  ∧ (∀ task_id s e,
       reply = Some (task_id, VStr s) →
       loads s = Raise e →
       next_task loads timeout b =
         if is_Exception e then (Return (OValue VNone), logged task_id)
         else (Raise e, b'))
  ∧ (∀ task_id message,
       reply = Some (task_id, message) →
       (∀ s, message ≠ VStr s) →
       next_task loads timeout b = (Return (OValue VNone), logged task_id))
  ∧ (∀ e, (next_task loads timeout b).1 = Raise e → is_Exception e = false).
Proof.
  intros Hget b' logged.
  rewrite (next_task_reply timeout b reply mq' Hget). fold b'.
  split; [|split; [|split; [|split]]].
  - by intros ->.
  - intros task_id s obj -> Hs. by rewrite deserialize_string, Hs.
  - intros task_id s e -> Hs. by rewrite deserialize_string, Hs.
  - intros task_id message -> Hmessage.
    destruct (deserialize_not_string message b' Hmessage) as [msg ->].
    reflexivity.
  - intros e. destruct reply as [[task_id message]|]; [|discriminate].
    destruct (deserialize loads message b').1 as [obj|e']; [discriminate|].
    destruct (is_Exception e') eqn:He'; [discriminate|].
    by intros [= <-].
Qed.

(** ** The worker loop *)

Lemma logging_with_log (l : level) (format : string) (args : list string) b :
  logging l format args b = (Return tt, with_log b (Log l format args)).
Proof. reflexivity. Qed.

Lemma worker_loop_rounds max_wait n b b1 :
  rounds loads task_invoke max_wait n b b1 →
  ∀ fuel,
    worker_loop loads task_invoke (n + fuel) max_wait b =
    worker_loop loads task_invoke fuel max_wait b1.
Proof.
  induction 1 as [b|n b task b1 b2 b3 Hnext Htask Hinvoke _ IH];
    intros fuel; [reflexivity|].
  simpl. rewrite Hnext.
  destruct task as [[]|]; try (by destruct Htask);
    by rewrite Hinvoke, IH.
Qed.

Lemma worker_loop_timeout max_wait fuel b b' :
  next_task loads max_wait b = (Return (OValue VNone), b') →
  worker_loop loads task_invoke (S fuel) max_wait b = Some (Return tt, b').
Proof. intros Hnext. simpl. by rewrite Hnext. Qed.

Lemma worker_loop_raise max_wait fuel b (task : object) b1 e b2 :
  next_task loads max_wait b = (Return task, b1) →
  task ≠ OValue VNone →
  task_invoke task b1 = (Raise e, b2) →
  worker_loop loads task_invoke (S fuel) max_wait b = Some (Raise e, b2).
Proof.
  intros Hnext Htask Hinvoke. simpl. rewrite Hnext.
  destruct task as [[]|]; try (by destruct Htask); by rewrite Hinvoke.
Qed.

(** C8.  After any number of rounds in which a task was pulled and its
    invocation returned, [Broker.start_worker] returns normally as soon as
    [next_task] returns [None]; when instead the invocation of the next
    task raises the stop signal, [start_worker] catches it, logs that the
    worker stopped and returns normally.  No run of [start_worker] ends by
    raising the stop signal. *)
Theorem start_worker_terminates max_wait n b b1 :
  rounds loads task_invoke max_wait n b b1 →
  (∀ b2 fuel,
     next_task loads max_wait b1 = (Return (OValue VNone), b2) →
     n < fuel →
     start_worker loads task_invoke fuel max_wait b = Some (Return tt, b2))
  ∧ (∀ (task : object) b2 b3 fuel,
       next_task loads max_wait b1 = (Return task, b2) →
       task ≠ OValue VNone →
       task_invoke task b2 = (Raise StopWorker, b3) →
       n < fuel →
       start_worker loads task_invoke fuel max_wait b =
         Some (Return tt, with_log b3 (Log INFO "worker stopped" [])))
  ∧ (∀ fuel b0 r b',
       start_worker loads task_invoke fuel max_wait b0 = Some (r, b') →
       r ≠ Raise StopWorker).
Proof.
  intros Hrounds. split; [|split].
  - intros b2 fuel Hnext Hfuel. unfold start_worker.
    replace fuel with (n + S (fuel - S n)) by lia.
    rewrite (worker_loop_rounds _ _ _ _ Hrounds).
    by rewrite (worker_loop_timeout _ _ _ _ Hnext).
  - intros task b2 b3 fuel Hnext Htask Hinvoke Hfuel. unfold start_worker.
    replace fuel with (n + S (fuel - S n)) by lia.
    rewrite (worker_loop_rounds _ _ _ _ Hrounds).
    by rewrite (worker_loop_raise _ _ _ _ _ _ _ Hnext Htask Hinvoke).
  - intros fuel b0 r b'. unfold start_worker.
    destruct (worker_loop loads task_invoke fuel max_wait b0)
      as [[[[]|e] b'']|]; [by intros [= <- _]| |discriminate].
    destruct e; simpl; by intros [= <- _].
Qed.

(** ** The task registry *)

Lemma keeps_ret {A} (a : A) : keeps_tasks (ret (MQ := MQ) (callable := callable) a).
Proof. by intros b. Qed.

Lemma keeps_raise {A} (e : exn) :
  keeps_tasks (raise (MQ := MQ) (callable := callable) (A := A) e).
Proof. by intros b. Qed.

Lemma keeps_self : keeps_tasks (self (MQ := MQ) (callable := callable)).
Proof. by intros b. Qed.

Lemma keeps_call {A} (f : MQ → A * MQ) :
  keeps_tasks (call (callable := callable) f).
Proof. intros b. unfold call. by destruct (f (messages b)). Qed.

Lemma keeps_call_ (f : MQ → MQ) : keeps_tasks (call_ (callable := callable) f).
Proof. apply keeps_call. Qed.

Lemma keeps_logging (l : level) (format : string) (args : list string) :
  keeps_tasks (logging (MQ := MQ) (callable := callable) l format args).
Proof. by intros b. Qed.

Lemma keeps_bind {A B} (m : M A) (k : A → M (MQ := MQ) (callable := callable) B) :
  keeps_tasks m → (∀ a, keeps_tasks (k a)) → keeps_tasks (bind m k).
Proof.
  intros Hm Hk b. unfold bind. specialize (Hm b).
  destruct (m b) as [[a|e] b1]; simpl in *; [|done].
  by rewrite Hk.
Qed.

Lemma keeps_try_except {A} (body : M (MQ := MQ) (callable := callable) A)
    (catches : exn → bool) (handler : exn → M A) :
  keeps_tasks body → (∀ e, keeps_tasks (handler e)) →
  keeps_tasks (try_except body catches handler).
Proof.
  intros Hbody Hhandler b. unfold try_except. specialize (Hbody b).
  destruct (body b) as [[a|e] b1]; simpl in *; [done|].
  destruct (catches e); [|done]. by rewrite Hhandler.
Qed.

Lemma keeps_deserialize (message : value) :
  keeps_tasks (deserialize (MQ := MQ) (callable := callable) loads message).
Proof. intros b. by rewrite deserialize_pure. Qed.

Create HintDb registry.
#[local] Hint Resolve keeps_ret keeps_raise keeps_self keeps_call keeps_call_
  keeps_logging keeps_deserialize : registry.

(** Unfolds one layer of a computation and discharges what the hints do. *)
Ltac keeps_step :=
  first
    [ solve [auto with registry]
    | apply keeps_bind; [|intros ?]
    | apply keeps_try_except; [|intros ?]
    | case_decide
    | case_match ].

Ltac keeps := repeat keeps_step.

Lemma keeps_enqueue task : keeps_tasks (enqueue (callable := callable) dumps task).
Proof. unfold enqueue. keeps. Qed.

Lemma keeps_stop : keeps_tasks (stop (MQ := MQ) (callable := callable) dumps).
Proof. unfold stop. apply keeps_bind; [apply keeps_enqueue|]. keeps. Qed.

Lemma keeps_set_status task (v : object) :
  keeps_tasks (set_status (callable := callable) dumps STATUS_VALUES task v).
Proof. unfold set_status. keeps. Qed.

Lemma keeps_status `{Identified R} (r : R) :
  keeps_tasks (status (callable := callable) loads STATUS_VALUES r).
Proof. unfold status. keeps. Qed.

Lemma keeps_next_task timeout :
  keeps_tasks (next_task (callable := callable) loads timeout).
Proof. unfold next_task. keeps. Qed.

Lemma keeps_set_result task (r : object) :
  keeps_tasks (set_result (callable := callable) dumps task r).
Proof. unfold set_result. keeps. Qed.

Lemma keeps_pop_result `{Identified T} (task : T) timeout :
  keeps_tasks (pop_result (callable := callable) loads task timeout).
Proof. unfold pop_result. keeps. Qed.

Lemma keeps_init_taskset (taskset : TaskSet.t) :
  keeps_tasks (init_taskset (callable := callable) taskset).
Proof. unfold init_taskset. keeps. Qed.

Local Abbreviation has_stop := (has_stop_task _stop_task).

Lemma has_stop_task_keeps {A} (m : M A) b :
  keeps_tasks m → has_stop b → has_stop (m b).2.
Proof. unfold has_stop_task. by intros ->. Qed.

Lemma expose_loop_has_stop_task (items : list (string * callable)) b :
  has_stop b → has_stop (expose_loop items b).2.
Proof.
  revert b. induction items as [|[task_name func] items IH]; intros b Hb;
    [done|].
  simpl. unfold bind, self. case_decide as Hdom; [done|].
  simpl. apply IH. unfold has_stop_task in *. simpl.
  rewrite lookup_insert_ne; [done|].
  intros ->. apply Hdom, elem_of_dom. by rewrite Hb.
Qed.

Lemma expose_loop_conflict (items : list (string * callable)) b :
  has_stop b →
  stop_task_name ∈ items.*1 →
  ∃ conflict,
    (expose_loop items b).1 =
      Raise (ValueError ("task " ++ repr conflict
                         ++ " conflicts with existing task")).
Proof.
  revert b. induction items as [|[task_name func] items IH]; intros b Hb Hin.
  { by apply elem_of_nil in Hin. }
  simpl. unfold bind, self. case_decide as Hdom; [by eexists|].
  simpl. apply IH.
  - unfold has_stop_task in *. simpl. rewrite lookup_insert_ne; [done|].
    intros ->. apply Hdom, elem_of_dom. by rewrite Hb.
  - simpl in Hin. apply elem_of_cons in Hin as [Heq|Hin]; [|done].
    subst task_name. exfalso. apply Hdom, elem_of_dom. by rewrite Hb.
Qed.

Lemma worker_loop_has_stop_task fuel max_wait b r b' :
  (∀ (task : object) b0, has_stop b0 → has_stop (task_invoke task b0).2) →
  has_stop b →
  worker_loop loads task_invoke fuel max_wait b = Some (r, b') →
  has_stop b'.
Proof.
  intros Hinvoke. revert b.
  induction fuel as [|fuel IH]; intros b Hb; [discriminate|].
  simpl.
  pose proof (has_stop_task_keeps _ b (keeps_next_task max_wait) Hb) as Hb1.
  destruct (next_task loads max_wait b) as [[task|e] b1]; simpl in Hb1;
    [|by intros [= _ <-]].
  assert (Hround :
    match task_invoke task b1 with
    | (Raise e, b2) => Some (Raise e, b2)
    | (Return _, b2) => worker_loop loads task_invoke fuel max_wait b2
    end = Some (r, b') → has_stop b').
  { pose proof (Hinvoke task b1 Hb1) as Hb2.
    destruct (task_invoke task b1) as [[[]|e] b2]; simpl in Hb2.
    - by apply IH.
    - by intros [= _ <-]. }
  destruct task as [[]|]; try exact Hround. by intros [= _ <-].
Qed.

Lemma after_has_stop_task (op : operation) b b' :
  (∀ (task : object) b0, has_stop b0 → has_stop (task_invoke task b0).2) →
  has_stop b →
  after callable_name dumps loads STATUS_VALUES task_invoke op b
  = Some b' →
  has_stop b'.
Proof.
  intros Hinvoke Hb.
  destruct op; unfold after; intros Hafter;
    try (apply (inj Some) in Hafter; subst b').
  - by apply expose_loop_has_stop_task.
  - revert Hafter. unfold start_worker.
    destruct (worker_loop loads task_invoke fuel max_wait b)
      as [[[[]|e] b1]|] eqn:Hloop; simpl; try discriminate.
    + intros [= <-]. by eapply worker_loop_has_stop_task.
    + pose proof (worker_loop_has_stop_task _ _ _ _ _ Hinvoke Hb Hloop).
      destruct (is_StopWorker e); by intros [= <-].
  - apply has_stop_task_keeps; [apply keeps_stop|done].
  - apply has_stop_task_keeps; [apply keeps_call_|done].
  - apply has_stop_task_keeps; [apply keeps_enqueue|done].
  - apply has_stop_task_keeps; [apply keeps_set_status|done].
  - apply has_stop_task_keeps; [apply keeps_status|done].
  - apply has_stop_task_keeps; [apply keeps_next_task|done].
  - by apply Hinvoke.
  - apply has_stop_task_keeps; [apply keeps_call_|done].
  - apply has_stop_task_keeps; [apply keeps_set_result|done].
  - apply has_stop_task_keeps; [apply keeps_pop_result|done].
  - apply has_stop_task_keeps; [apply keeps_call_|done].
  - apply has_stop_task_keeps; [apply keeps_init_taskset|done].
Qed.

(** C10.  [Broker.__init__] registers the stop task under the name
    ['<stop_task>'], and every broker reached from it by broker operations
    still has it there, as long as invoking a task leaves that entry
    alone.  On such a broker, [Broker.expose] of a callable or of a
    [TaskSpace] whose names include ['<stop_task>'] raises the
    naming-conflict [ValueError], and the stop task stays registered. *)
Theorem stop_task_reserved b :
  (∀ (task : object) b0, has_stop b0 → has_stop (task_invoke task b0).2) →
  reachable _stop_task callable_name dumps loads STATUS_VALUES task_invoke b →
  (∀ message_queue, has_stop (__init__ _stop_task message_queue))
  ∧ has_stop b
  ∧ ∀ obj,
      stop_task_name ∈ exposed_names callable_name obj →
      (∃ conflict,
         (expose callable_name obj b).1 =
           Raise (ValueError ("task " ++ repr conflict
                              ++ " conflicts with existing task")))
      ∧ has_stop (expose callable_name obj b).2.
Proof.
  intros Hinvoke Hreach.
  assert (Hinit : ∀ message_queue, has_stop (__init__ _stop_task message_queue)).
  { intros message_queue. unfold has_stop_task, __init__. simpl.
    apply lookup_singleton_eq. }
  assert (Hb : has_stop b).
  { induction Hreach as [message_queue|op b b' _ IH Hafter]; [done|].
    by eapply after_has_stop_task. }
  split; [done|]. split; [done|].
  intros obj Hin. split.
  - unfold expose. apply expose_loop_conflict; [done|]. by destruct obj.
  - by apply expose_loop_has_stop_task.
Qed.

End Properties.

(** ** Task sets, on the reference backend *)

Section TaskSets.
Import Memory.
Local Close Scope string_scope.

Variable tid : string.
Variable K : nat.

Implicit Types (q : Memory.t) (c : update) (calls : list update).

Lemma run_updates_cons c calls q :
  run_updates (c :: calls) q =
    ((c, (update_taskset (taskset_id c) (num_tasks c) (message c)
            (expires c) q).1)
     :: (run_updates calls
           (update_taskset (taskset_id c) (num_tasks c) (message c)
              (expires c) q).2).1,
     (run_updates calls
        (update_taskset (taskset_id c) (num_tasks c) (message c)
           (expires c) q).2).2).
Proof.
  cbn [run_updates].
  destruct (update_taskset (taskset_id c) (num_tasks c) (message c)
              (expires c) q) as [r q1].
  cbn [fst snd]. by destruct (run_updates calls q1).
Qed.

Lemma update_taskset_collected c q :
  collected tid
    (update_taskset (taskset_id c) (num_tasks c) (message c) (expires c) q).2
  = if decide (taskset_id c = tid) then collected tid q ++ [message c]
    else collected tid q.
Proof.
  unfold collected, update_taskset. simpl. case_decide as Hid.
  - subst tid. by rewrite lookup_insert_eq.
  - by rewrite lookup_insert_ne.
Qed.

Lemma update_taskset_returns c q :
  taskset_id c = tid →
  (update_taskset (taskset_id c) (num_tasks c) (message c) (expires c) q).1
  = if decide (Z.of_nat (length (collected tid q ++ [message c])) = num_tasks c)
    then Some (collected tid q ++ [message c]) else None.
Proof.
  intros <-. unfold collected, update_taskset. simpl.
  case_decide as Hlen.
  - by rewrite (proj2 (Z.eqb_eq _ _) Hlen).
  - by rewrite (proj2 (Z.eqb_neq _ _) Hlen).
Qed.

Lemma submitted_cons c calls :
  submitted tid (c :: calls) =
    if decide (taskset_id c = tid) then message c :: submitted tid calls
    else submitted tid calls.
Proof.
  unfold submitted. case_decide.
  - by rewrite filter_cons_True.
  - by rewrite filter_cons_False.
Qed.

Lemma completions_cons c (r : option (list value)) trace :
  completions tid ((c, r) :: trace) =
    if decide (taskset_id c = tid) then from_option (λ l, [l]) [] r
                                        ++ completions tid trace
    else completions tid trace.
Proof.
  unfold completions. cbn. destruct (decide (taskset_id c = tid)); [|done].
  by destruct r.
Qed.

(** No update is lost: the store holds every message in arrival order. *)
Lemma run_updates_collected calls q :
  collected tid (run_updates calls q).2 = collected tid q ++ submitted tid calls.
Proof.
  revert q. induction calls as [|c calls IH]; intros q.
  { simpl. by rewrite app_nil_r. }
  rewrite run_updates_cons. cbn [fst snd].
  rewrite IH, update_taskset_collected, submitted_cons.
  case_decide; [|done]. by rewrite <- app_assoc.
Qed.

(** What the [i]-th call is returned, when it is a call for [tid]. *)
Lemma run_updates_lookup calls q i c r :
  (run_updates calls q).1 !! i = Some (c, r) →
  taskset_id c = tid →
  let seen := collected tid q ++ submitted tid (take (S i) calls) in
  r = if decide (Z.of_nat (length seen) = num_tasks c) then Some seen else None.
Proof.
  revert q i. induction calls as [|c0 calls IH]; intros q i; [done|].
  rewrite run_updates_cons. cbn [fst snd].
  destruct i as [|i]; cbn [lookup list_lookup take].
  - intros Heq Hid. assert (c0 = c) as -> by congruence.
    rewrite (update_taskset_returns _ _ Hid) in Heq.
    rewrite take_0, submitted_cons, (decide_True _ _ Hid).
    change (submitted tid []) with (@nil value). congruence.
  - intros Hi Hid. specialize (IH _ _ Hi Hid). cbv zeta in IH.
    rewrite update_taskset_collected in IH.
    rewrite submitted_cons.
    destruct (decide (taskset_id c0 = tid)); [|done].
    by rewrite <- app_assoc in IH.
Qed.

(** The lists handed back for [tid]: one, when the count passes through
    [K], and none otherwise. *)
Lemma run_updates_completions calls q :
  Forall (λ c, taskset_id c = tid → num_tasks c = Z.of_nat K) calls →
  let acc := collected tid q in
  let all := acc ++ submitted tid calls in
  completions tid (run_updates calls q).1 =
    if decide (length acc < K ≤ length all) then [take K all] else [].
Proof.
  intros Hcalls. revert q.
  induction Hcalls as [|c calls Hc _ IH]; intros q.
  { simpl. rewrite app_nil_r. case_decide; [exfalso; lia|done]. }
  rewrite run_updates_cons. cbn [fst snd].
  specialize (IH (update_taskset (taskset_id c) (num_tasks c) (message c)
                    (expires c) q).2).
  cbv zeta in IH. rewrite update_taskset_collected in IH.
  rewrite completions_cons, submitted_cons.
  destruct (decide (taskset_id c = tid)) as [Hid|Hid].
  - rewrite IH, (update_taskset_returns _ _ Hid), (Hc Hid). clear IH.
    rewrite <- !app_assoc. cbn [app].
    rewrite !length_app. cbn [length].
    destruct (decide (Z.of_nat (length (collected tid q) + 1) = Z.of_nat K))
      as [Hlen|Hlen].
    + do 2 case_decide; try (exfalso; lia).
      cbn [from_option]. rewrite app_nil_r. f_equal.
      assert (collected tid q ++ message c :: submitted tid calls
              = (collected tid q ++ [message c]) ++ submitted tid calls) as ->
        by by rewrite <- app_assoc.
      symmetry. apply take_app_length'. rewrite length_app. cbn [length]. lia.
    + do 2 case_decide; try (exfalso; lia); done.
  - by rewrite IH.
Qed.

(** C9, on the reference backend.  Take a task set of size [K ≥ 1] with
    nothing collected yet and any sequence of [update_taskset] calls, in
    the order in which the backend serves them (calls for other task sets
    may be interleaved), of which at least [K] are for this task set.
    Exactly one call for the task set is returned a list; it is the call
    that brings the count to [K], and the list has length [K] and is a
    permutation of the first [K] submitted messages.  Every other call for
    the task set is returned nothing, and in the end the store holds all
    submitted messages. *)
Theorem update_taskset_exactly_once calls q :
  0 < K →
  collected tid q = [] →
  Forall (λ c, taskset_id c = tid → num_tasks c = Z.of_nat K) calls →
  K ≤ length (submitted tid calls) →
  (∃ l, completions tid (run_updates calls q).1 = [l]
        ∧ length l = K
        ∧ l ≡ₚ take K (submitted tid calls))
  ∧ (∀ i c r,
       (run_updates calls q).1 !! i = Some (c, r) →
       taskset_id c = tid →
       (is_Some r ↔ length (submitted tid (take (S i) calls)) = K)
       ∧ (r = None ↔ length (submitted tid (take (S i) calls)) ≠ K))
  ∧ collected tid (run_updates calls q).2 = submitted tid calls.
Proof.
  intros HK Hfresh Hcalls Hlen. split; [|split].
  - exists (take K (submitted tid calls)).
    rewrite (run_updates_completions calls q Hcalls), Hfresh. simpl.
    rewrite decide_True by lia.
    split; [done|]. split; [|done]. rewrite length_take. lia.
  - intros i c r Hi Hid.
    pose proof (run_updates_lookup _ _ _ _ _ Hi Hid) as Hr. simpl in Hr.
    rewrite Hfresh in Hr. simpl in Hr.
    assert (Hnum : num_tasks c = Z.of_nat K).
    { apply list_elem_of_lookup_2 in Hi.
      assert (Hc : c ∈ calls).
      { clear -Hi. revert q Hi. induction calls as [|c0 calls' IH]; intros q.
        - by intros ?%elem_of_nil.
        - rewrite run_updates_cons. simpl.
          intros [[= -> _]|Hin]%elem_of_cons; [left|right; eauto]. }
      rewrite Forall_forall in Hcalls. by apply Hcalls. }
    rewrite Hnum in Hr. subst r.
    destruct (decide _) as [Hcount|Hcount]; (split; split).
    + intros _. lia.
    + by eauto.
    + discriminate.
    + intros Hne. lia.
    + by intros [? ?].
    + intros Heq. lia.
    + intros _. lia.
    + done.
  - by rewrite run_updates_collected, Hfresh.
Qed.

End TaskSets.

(** ** The statements above, on the reference backend *)

Section Examples.
Import Fixture.

Lemma memory_discard_then_pop (mq : Memory.t) (task_id : string)
    (token : value) (timeout : timeout) :
  (mq_pop_result task_id timeout (discard_result task_id token mq)).1
  = Some token.
Proof.
  simpl. unfold Memory.pop_result, Memory.discard_result. simpl.
  by rewrite lookup_insert_eq.
Qed.

Lemma memory_status_store (task_id : string) (message : value)
    (mq : Memory.t) :
  (mq_get_status task_id (mq_set_status task_id message mq)).1 = Some message.
Proof. simpl. apply lookup_insert_eq. Qed.

Lemma fixture_invoke_keeps_stop_task (task : object) (b : broker) :
  has_stop_task StopTask b → has_stop_task StopTask (task_invoke task b).2.
Proof.
  intros Hb. destruct task as [v|t]; [done|]. simpl.
  by destruct (tasks b !! Task.name t) as [[]|].
Qed.

(** C1: a task with a [result_timeout] gets its handle. *)
Lemma enqueue_handle_iff_tracking_witness :
  dom (Task.options tracked_task) ⊆ task_options
  ∧ ∃ result,
      (enqueue Pickle.dumps tracked_task fresh).1 = Return result
      ∧ (is_Some result ↔ requests_tracking (Task.options tracked_task)).
Proof.
  assert (Hvalid : dom (Task.options tracked_task) ⊆ task_options)
    by (apply (bool_decide_unpack _); vm_compute; exact I).
  split; [exact Hvalid|].
  destruct (enqueue_handle_iff_tracking Pickle.dumps tracked_task fresh Hvalid)
    as (result & Hresult & Hiff & _).
  exists result. split; [exact Hresult | exact Hiff].
Defined.

(** C1 as stated fails: the options of [untracked_task] are valid and
    contain [result_status], yet [enqueue] returns no handle. *)
Lemma enqueue_result_status_false_no_handle :
  dom (Task.options untracked_task) ⊆ task_options
  ∧ ¬ ((∃ d, (enqueue Pickle.dumps untracked_task fresh).1 = Return (Some d))
       ↔ ("result_status" ∈ dom (Task.options untracked_task)
          ∨ "result_timeout" ∈ dom (Task.options untracked_task))).
Proof.
  split.
  - apply (bool_decide_unpack _). vm_compute. exact I.
  - intros [_ Hback].
    destruct Hback as [d Hd].
    + left. apply (bool_decide_unpack _). vm_compute. exact I.
    + vm_compute in Hd. discriminate.
Qed.

(** C5: [misconfigured_task] carries the unknown option [retries]. *)
Lemma enqueue_unrecognized_option_witness :
  ("retries" ∈ dom (Task.options misconfigured_task))
  ∧ ("retries" ∉ task_options)
  ∧ ∃ keys,
      enqueue Pickle.dumps misconfigured_task fresh =
        (Raise (ValueError ("unrecognized task options: "
                            ++ String.concat ", " keys)), fresh)
      ∧ NoDup keys
      ∧ ∀ k, k ∈ keys ↔ k ∈ dom (Task.options misconfigured_task)
                         ∧ k ∉ task_options.
Proof.
  assert (Hin : "retries" ∈ dom (Task.options misconfigured_task))
    by (apply (bool_decide_unpack _); vm_compute; exact I).
  assert (Hout : "retries" ∉ task_options)
    by (apply (bool_decide_unpack _); vm_compute; exact I).
  split; [exact Hin|]. split; [exact Hout|].
  exact (enqueue_unrecognized_option Pickle.dumps misconfigured_task fresh
           "retries" Hin Hout).
Defined.

(** The broker after a worker has stored the result ["done"] of
    [bare_task]. *)
Lemma pop_result_outcomes_witness :
  let b := (set_result Pickle.dumps bare_task (OValue (VStr "done")) fresh).2 in
  let popped := mq_pop_result "t4" (Some 0%Z) (messages b) in
  py_lt (Some 0%Z) 0 = false
  ∧ popped.1 = Some (VStr "Sdone")
  ∧ pop_result Pickle.loads bare_task (Some 0%Z) b
    = (Return (OValue (VStr "done")), with_messages b popped.2).
Proof.
  intros b popped. split; [reflexivity|]. split; [reflexivity|].
  assert (Hok : py_lt (Some 0%Z) 0 = false) by reflexivity.
  assert (Hreply : mq_pop_result (id_of bare_task) (Some 0%Z) (messages b)
                   = (Some (VStr "Sdone"), popped.2)) by reflexivity.
  destruct (pop_result_outcomes Pickle.loads bare_task (Some 0%Z) b
              (Some (VStr "Sdone")) popped.2 Hok Hreply)
    as (_ & _ & Hreturn & _).
  apply (Hreturn "Sdone" (OValue (VStr "done"))); [reflexivity|reflexivity|].
  discriminate.
Defined.

(** C3 as stated fails: after [task_failed] the stored message is the
    serialized sentinel, which is neither absent nor the sentinel itself
    and deserializes without error; [pop_result] does not return the
    deserialized object but raises [TaskExpired]. *)
Lemma pop_result_serialized_sentinel_raises :
  let b := (task_failed Pickle.dumps bare_task fresh).2 in
  ∃ message obj,
    (mq_pop_result "t4" (Some 0%Z) (messages b)).1 = Some message
    ∧ message ≠ TASK_EXPIRED
    ∧ (deserialize Pickle.loads message b).1 = Return obj
    ∧ (pop_result Pickle.loads bare_task (Some 0%Z) b).1 ≠ Return obj
    ∧ (pop_result Pickle.loads bare_task (Some 0%Z) b).1
      = Raise (TaskExpired "noop" "default" "t4"
                 "task expired before a result was returned").
Proof.
  intros b. exists (VStr "X"), (OValue TASK_EXPIRED).
  split; [reflexivity|]. split; [discriminate|]. split; [reflexivity|].
  split; [discriminate|reflexivity].
Qed.

(** Expiry after failure on the reference backend. *)
Lemma task_failed_then_pop_result_witness :
  (∀ (mq : Memory.t) task_id token timeout,
     let reply := (mq_pop_result task_id timeout
                     (discard_result task_id token mq)).1 in
     reply = Some token ∨ reply = Some TASK_EXPIRED)
  ∧ Pickle.loads (Pickle.dumps (OValue TASK_EXPIRED))
    = Return (OValue TASK_EXPIRED)
  ∧ (0 ≤ 5)%Z
  ∧ (pop_result Pickle.loads bare_task (Some 5%Z)
       (task_failed Pickle.dumps bare_task fresh).2).1
    = Raise (TaskExpired "noop" "default" "t4"
               "task expired before a result was returned").
Proof.
  assert (Hcontract : ∀ (mq : Memory.t) task_id token timeout,
            let reply := (mq_pop_result task_id timeout
                            (discard_result task_id token mq)).1 in
            reply = Some token ∨ reply = Some TASK_EXPIRED)
    by (intros mq task_id token timeout; left;
        apply memory_discard_then_pop).
  assert (Hle : (0 ≤ 5)%Z) by lia.
  split; [exact Hcontract|]. split; [reflexivity|]. split; [exact Hle|].
  exact (task_failed_then_pop_result Pickle.dumps Pickle.loads bare_task
           bare_task 5 fresh Hcontract eq_refl eq_refl Hle).
Defined.

(** C6 on the reference backend, for a status outside the enumeration. *)
Lemma status_round_trip_witness :
  let v := OValue (VStr "halfway") in
  let b1 := (set_status Pickle.dumps STATUS_VALUES bare_task v fresh).2 in
  in_STATUS_VALUES STATUS_VALUES v = false
  ∧ Pickle.loads (Pickle.dumps v) = Return v
  ∧ STATUS_VALUES (VStr (Pickle.dumps v)) = false
  ∧ (status Pickle.loads STATUS_VALUES bare_task b1).1 = Return v.
Proof.
  intros v b1. split; [reflexivity|]. split; [reflexivity|].
  split; [reflexivity|].
  apply (status_round_trip Pickle.dumps Pickle.loads STATUS_VALUES bare_task
           bare_task v fresh).
  - intros task_id message mq. apply memory_status_store.
  - reflexivity.
  - intros _. split; reflexivity.
Defined.

(** C7: [bare_task], once enqueued, is what [next_task] returns. *)
Lemma next_task_contains_exceptions_witness :
  let b := (enqueue Pickle.dumps bare_task fresh).2 in
  let got := get (Some 1%Z) (messages b) in
  got.1 = Some ("t4", VStr (Pickle.dumps (OTask bare_task)))
  ∧ Pickle.loads (Pickle.dumps (OTask bare_task)) = Return (OTask bare_task)
  ∧ next_task Pickle.loads (Some 1%Z) b
    = (Return (OTask bare_task), with_messages b got.2).
Proof.
  intros b got. split; [reflexivity|]. split; [reflexivity|].
  assert (Hget : get (Some 1%Z) (messages b)
                 = (Some ("t4", VStr (Pickle.dumps (OTask bare_task))), got.2))
    by reflexivity.
  assert (Hloads : Pickle.loads (Pickle.dumps (OTask bare_task))
                   = Return (OTask bare_task)) by reflexivity.
  destruct (next_task_contains_exceptions Pickle.loads (Some 1%Z) b
              (Some ("t4", VStr (Pickle.dumps (OTask bare_task)))) got.2 Hget)
    as (_ & Hsuccess & _).
  exact (Hsuccess "t4" (Pickle.dumps (OTask bare_task)) (OTask bare_task)
           eq_refl Hloads).
Defined.

(** C7 as stated fails: deserializing the dequeued message fails with the
    stop signal, which is no [Exception]; [next_task] does not return
    [None] but raises it, and logs nothing. *)
Lemma next_task_lets_stop_signal_escape :
  let b := with_messages fresh
             (enqueue_task "t9" (VStr "R<stop_task>") None (messages fresh)) in
  (get (Some 1%Z) (messages b)).1 = Some ("t9", VStr "R<stop_task>")
  ∧ (deserialize Pickle.loads (VStr "R<stop_task>") b).1 = Raise StopWorker
  ∧ (next_task Pickle.loads (Some 1%Z) b).1 ≠ Return (OValue VNone)
  ∧ (next_task Pickle.loads (Some 1%Z) b).1 = Raise StopWorker
  ∧ log (next_task Pickle.loads (Some 1%Z) b).2 = [].
Proof.
  intros b. split; [reflexivity|]. split; [reflexivity|].
  split; [discriminate|]. split; reflexivity.
Qed.

(** C8: a queue holding [bare_task] and then the stop task.  The worker
    runs the first, is stopped by the second, and returns. *)
Lemma start_worker_terminates_witness :
  let b := (stop Pickle.dumps (enqueue Pickle.dumps bare_task fresh).2).2 in
  ∃ b1 b3,
    rounds Pickle.loads task_invoke (Some 0%Z) 1 b b1
    ∧ start_worker Pickle.loads task_invoke 2 (Some 0%Z) b
      = Some (Return tt, with_log b3 (Log INFO "worker stopped" []))
    ∧ Memory.queue (messages b3) = [].
Proof.
  intros b.
  set (b1 := (next_task Pickle.loads (Some 0%Z) b).2).
  set (b2 := (next_task Pickle.loads (Some 0%Z) b1).2).
  assert (Hrounds : rounds Pickle.loads task_invoke (Some 0%Z) 1 b b1).
  { apply (rounds_S _ _ _ 0 b (OTask bare_task) b1 b1 b1);
      [reflexivity | discriminate | reflexivity | apply rounds_O]. }
  exists b1, b2. split; [exact Hrounds|]. split; [|reflexivity].
  destruct (start_worker_terminates Pickle.loads task_invoke (Some 0%Z) 1 b b1
              Hrounds) as (_ & Hstop & _).
  apply (Hstop (OTask (Task.mk stop_task_name "stop" [] ∅ 0 None)) b2 b2 2);
    [reflexivity | discriminate | reflexivity | lia].
Defined.

(** C9: of the three [updates], the third is the one that completes the
    task set ["ts"]. *)
Lemma update_taskset_exactly_once_witness :
  let q := Memory.empty "memory://" "default" in
  (0 < 2)%nat
  ∧ Memory.collected "ts" q = []
  ∧ (2 ≤ length (Memory.submitted "ts" updates))%nat
  ∧ Memory.completions "ts" (Memory.run_updates updates q).1
    = [[VStr "a"; VStr "b"]]
  ∧ ∃ l, Memory.completions "ts" (Memory.run_updates updates q).1 = [l]
         ∧ length l = 2
         ∧ l ≡ₚ take 2 (Memory.submitted "ts" updates).
Proof.
  intros q.
  assert (Hsize : (0 < 2)%nat) by lia.
  assert (Hfresh : Memory.collected "ts" q = []) by reflexivity.
  assert (Hcalls : Forall (λ c, Memory.taskset_id c = "ts"
                                → Memory.num_tasks c = Z.of_nat 2) updates).
  { repeat constructor; simpl; intros; congruence. }
  assert (Hcount : (2 ≤ length (Memory.submitted "ts" updates))%nat)
    by (vm_compute; lia).
  split; [exact Hsize|]. split; [exact Hfresh|]. split; [exact Hcount|].
  split; [reflexivity|].
  exact (proj1 (update_taskset_exactly_once "ts" 2 updates q
                  Hsize Hfresh Hcalls Hcount)).
Defined.

(** C10: after a first function has been exposed, a task space that
    brings its own ['<stop_task>'] is refused. *)
Lemma stop_task_reserved_witness :
  let b := (expose callable_name (ACallable (Function "add")) fresh).2 in
  let space := ATaskSpace [("mul", Function "mul");
                           (stop_task_name, Function "halt")] in
  stop_task_name ∈ exposed_names callable_name space
  ∧ (∃ conflict,
       (expose callable_name space b).1 =
         Raise (ValueError ("task " ++ repr conflict
                            ++ " conflicts with existing task")))
  ∧ has_stop_task StopTask (expose callable_name space b).2.
Proof.
  intros b space.
  assert (Hnames : stop_task_name ∈ exposed_names callable_name space)
    by (apply (bool_decide_unpack _); vm_compute; exact I).
  assert (Hreach :
    reachable StopTask callable_name Pickle.dumps Pickle.loads STATUS_VALUES
      task_invoke b).
  { apply (reachable_after _ _ _ _ _ _ (Expose (ACallable (Function "add")))
             fresh b); [apply reachable_init | reflexivity]. }
  split; [exact Hnames|].
  destruct (stop_task_reserved StopTask callable_name Pickle.dumps
              Pickle.loads STATUS_VALUES task_invoke b
              fixture_invoke_keeps_stop_task Hreach) as (_ & _ & Hexpose).
  exact (Hexpose space Hnames).
Defined.

End Examples.

(** * Further properties of the broker *)

Section Registry.
Context {MQ : Type} `{!AbstractMessageQueue MQ} {callable : Type}.
Variable callable_name : callable → string.

(** For an ordinary name, [%r] gives the name between single quotes. *)
Lemma repr_plain_name (s : string) :
  plain_name s = true →
  repr s = String (char 39) (s ++ String (char 39) EmptyString).
Proof.
  intros Hplain.
  assert (Hchar : ∀ c, plain_char c = true →
            Ascii.eqb (char 39) c = false
            ∧ repr_char (char 39) c = String c EmptyString).
  { intros c Hc. unfold plain_char in Hc.
    repeat (apply andb_prop in Hc as [Hc ?]).
    apply Nat.leb_le in Hc.
    repeat match goal with
           | H : (_ <? _)%nat = true |- _ => apply Nat.ltb_lt in H
           | H : negb _ = true |- _ =>
               apply negb_true_iff, Nat.eqb_neq in H
           end.
    assert (Hquote : Ascii.eqb c (char 39) = false).
    { apply Ascii.eqb_neq. intros ->. by vm_compute in *. }
    split; [by rewrite Ascii.eqb_sym|].
    unfold repr_char. rewrite Hquote. cbn [orb].
    repeat match goal with
           | |- context [(?a =? ?k)%nat] =>
               rewrite (proj2 (Nat.eqb_neq a k)) by lia
           end.
    rewrite (proj2 (Nat.ltb_ge _ 32)) by lia.
    rewrite (proj2 (Nat.leb_gt 127 _)) by lia.
    reflexivity. }
  assert (Hbody : contains (char 39) s = false
                  ∧ repr_chars (char 39) s = s).
  { induction s as [|c s IH]; [done|].
    cbn [plain_name] in Hplain. apply andb_prop in Hplain as [Hc Hs].
    destruct (Hchar c Hc) as [Hne Hrepr]. destruct (IH Hs) as [Hno Hsame].
    cbn [contains repr_chars]. by rewrite Hne, Hno, Hrepr, Hsame. }
  destruct Hbody as [Hno Hsame]. unfold repr. rewrite Hno.
  cbn [andb]. cbv zeta. by rewrite Hsame.
Qed.

Implicit Types (b : Broker (MQ := MQ) (callable := callable)).
Implicit Types (items : list (string * callable)).

Lemma expose_loop_cons n (f : callable) items b :
  expose_loop ((n, f) :: items) b =
    if decide (n ∈ dom (tasks b)) then
      (Raise (ValueError ("task " ++ repr n
                          ++ " conflicts with existing task")), b)
    else
      expose_loop items
        (mkBroker (messages b) (<[n := f]> (tasks b)) (name b) (log b)).
Proof. simpl. unfold bind, self. by case_decide. Qed.

(** A name with a backslash is escaped, and a name with a single quote
    is put between double quotes. *)
Example repr_escapes :
  repr (String "a"%char (String (char 92) "b"))
  = String (char 39)
      (String "a"%char
         (String (char 92) (String (char 92) (String "b"%char
            (String (char 39) EmptyString)))))
  ∧ repr (String "o"%char (String (char 39) "k"))
    = String (char 34)
        (String "o"%char (String (char 39) (String "k"%char
           (String (char 34) EmptyString)))).
Proof. split; reflexivity. Qed.

(** Registering fresh names one after the other. *)
Lemma expose_loop_fresh items :
  ∀ b rest,
    NoDup items.*1 →
    (∀ n, n ∈ items.*1 → n ∉ dom (tasks b)) →
    expose_loop (items ++ rest)%list b =
      expose_loop rest
        (mkBroker (messages b) (list_to_map items ∪ tasks b) (name b) (log b)).
Proof.
  induction items as [|[n f] items IH]; intros b rest Hnodup Hfresh.
  { simpl. rewrite (left_id_L ∅ (∪)). by destruct b. }
  simpl in *. apply NoDup_cons in Hnodup as [Hn Hnodup].
  unfold bind at 1. unfold self.
  destruct (decide (n ∈ dom (tasks b))) as [Hdom|_].
  { exfalso. by apply (Hfresh n); [left|]. }
  unfold bind, set_task. rewrite IH; [|done|]; simpl.
  - do 2 f_equal. rewrite <- insert_union_r, insert_union_l; [done|].
    by apply not_elem_of_list_to_map_1.
  - intros m Hm. rewrite dom_insert_L, not_elem_of_union, not_elem_of_singleton.
    split; [|apply Hfresh; by right]. by intros ->.
Qed.

(** [Broker.expose] of names that are all new registers every one of them
    and returns; it touches neither the message queue nor the log. *)
Theorem expose_registers (obj : exposable) b :
  NoDup (exposed_names callable_name obj) →
  (∀ n, n ∈ exposed_names callable_name obj → n ∉ dom (tasks b)) →
  expose callable_name obj b =
    (Return tt,
     mkBroker (messages b)
       (list_to_map (exposed_tasks callable_name obj) ∪ tasks b)
       (name b) (log b)).
Proof.
  intros Hnodup Hfresh. unfold expose.
  change (match obj with
          | ATaskSpace space_tasks => space_tasks
          | ACallable f => [(callable_name f, f)]
          end) with (exposed_tasks callable_name obj).
  assert (Hnames : exposed_names callable_name obj
                   = (exposed_tasks callable_name obj).*1) by by destruct obj.
  rewrite Hnames in *.
  rewrite <- (app_nil_r (exposed_tasks callable_name obj)) at 1.
  by rewrite expose_loop_fresh.
Qed.

(** [Broker.expose] stops at the first name, in iteration order, that is
    already registered.  It raises the conflict for that name, formatted
    with [%r], and the names before it stay registered: nothing is rolled
    back. *)
Theorem expose_first_conflict (obj : exposable) b items n f rest :
  exposed_tasks callable_name obj = (items ++ (n, f) :: rest)%list →
  NoDup (exposed_names callable_name obj) →
  (∀ m, m ∈ items.*1 → m ∉ dom (tasks b)) →
  n ∈ dom (tasks b) →
  expose callable_name obj b =
    (Raise (ValueError ("task " ++ repr n ++ " conflicts with existing task")),
     mkBroker (messages b) (list_to_map items ∪ tasks b) (name b) (log b)).
Proof.
  intros Hitems Hnodup Hfresh Hconflict. unfold expose.
  change (match obj with
          | ATaskSpace space_tasks => space_tasks
          | ACallable f => [(callable_name f, f)]
          end) with (exposed_tasks callable_name obj).
  assert (Hnames : exposed_names callable_name obj
                   = (exposed_tasks callable_name obj).*1) by by destruct obj.
  rewrite Hnames, Hitems, fmap_app in Hnodup.
  apply NoDup_app in Hnodup as (Hnodup & _ & _).
  rewrite Hitems, expose_loop_fresh by done.
  rewrite expose_loop_cons. simpl.
  destruct (decide (n ∈ dom (list_to_map items ∪ tasks b))) as [_|Hdom];
    [done|].
  exfalso. apply Hdom. rewrite dom_union_L, elem_of_union. by right.
Qed.

Lemma expose_loop_grows items b :
  tasks b ⊆ tasks (expose_loop items b).2
  ∧ messages (expose_loop items b).2 = messages b
  ∧ name (expose_loop items b).2 = name b
  ∧ log (expose_loop items b).2 = log b.
Proof.
  revert b. induction items as [|[n f] items IH]; intros b; [done|].
  rewrite expose_loop_cons.
  destruct (decide (n ∈ dom (tasks b))) as [_|Hdom]; [done|].
  destruct (IH (mkBroker (messages b) (<[n:=f]> (tasks b)) (name b) (log b)))
    as (Htasks & Hmessages & Hname & Hlog).
  simpl in *. split; [|done].
  etrans; [|exact Htasks]. apply insert_subseteq.
  by apply not_elem_of_dom.
Qed.

(** Whatever it is given and whether or not it raises, [Broker.expose]
    keeps every entry the registry already has, with the callable it had,
    and leaves the message queue, the broker name and the log alone. *)
Theorem expose_only_adds (obj : exposable) b :
  tasks b ⊆ tasks (expose callable_name obj b).2
  ∧ messages (expose callable_name obj b).2 = messages b
  ∧ name (expose callable_name obj b).2 = name b
  ∧ log (expose callable_name obj b).2 = log b.
Proof. apply expose_loop_grows. Qed.

End Registry.

Section Lifecycle.
Context {MQ : Type} `{!AbstractMessageQueue MQ} {callable : Type}.
Variable _stop_task : callable.
Variable callable_name : callable → string.
Variable dumps : object → string.
Variable loads : string → result object.
Variable STATUS_VALUES : value → bool.
Variable task_invoke : object → M (MQ := MQ) (callable := callable) unit.

Implicit Types (b : Broker (MQ := MQ) (callable := callable)).

(** [Broker.pop_result] with a number as timeout: a negative one is
    rejected and the broker stays as it was; any other is passed to the
    backend for the id of the task and the reply is consumed.  In that
    case the error for negative timeouts can only come out of the codec
    itself, raised by [loads] on the stored message. *)
Theorem pop_result_numeric_timeout `{Identified T} (task : T) (t : Z) b :
  if (t <? 0)%Z then
    pop_result loads task (Some t) b =
      (Raise (ValueError "negative timeout not supported"), b)
  else
    (pop_result loads task (Some t) b).2 =
      with_messages b (mq_pop_result (id_of task) (Some t) (messages b)).2
    ∧ ((pop_result loads task (Some t) b).1
       = Raise (ValueError "negative timeout not supported") →
       ∃ s, (mq_pop_result (id_of task) (Some t) (messages b)).1
            = Some (VStr s)
            ∧ loads s = Raise (ValueError "negative timeout not supported")).
Proof.
  destruct (t <? 0)%Z eqn:Ht.
  - apply pop_result_negative. by apply Z.ltb_lt.
  - destruct (mq_pop_result (id_of task) (Some t) (messages b))
      as [reply mq'] eqn:Hreply.
    rewrite (pop_result_reply loads task (Some t) b reply mq' Ht Hreply).
    destruct reply as [message|]; [|by split].
    destruct message as [| | |s|]; simpl; try by split.
    destruct (loads s) as [[[]|]|e] eqn:Hs; simpl; split; try done.
    intros [= ->]. by exists s.
Qed.

(** A result stored with [Broker.set_result] is what a following
    [Broker.pop_result] for the same id returns, on a backend that hands
    back the stored message and a codec that reads the result back.  One
    result is never returned: when a task's result is [TASK_EXPIRED]
    itself, the reader is told that the task expired. *)
Theorem set_result_then_pop_result `{Identified R}
    (task : Task.t) (r : R) (result : object) (t : Z) b :
  (∀ mq task_id message expires timeout,
     (mq_pop_result task_id timeout
        (mq_set_result task_id message expires mq)).1 = Some message) →
  loads (dumps result) = Return result →
  id_of r = Task.id task →
  (0 ≤ t)%Z →
  (pop_result loads r (Some t) (set_result dumps task result b).2).1 =
    match result with
    | OValue TASK_EXPIRED =>
        Raise (TaskExpired (name_of r) (name b) (Task.id task)
                 "task expired before a result was returned")
    | _ => Return result
    end.
Proof.
  intros Hstore Hcodec Hid Ht.
  set (b1 := (set_result dumps task result b).2).
  assert (Hok : py_lt (Some t) 0 = false) by by apply Z.ltb_ge.
  destruct (mq_pop_result (id_of r) (Some t) (messages b1))
    as [reply mq'] eqn:Hreply.
  rewrite (pop_result_reply loads r (Some t) b1 reply mq' Hok Hreply).
  assert (reply = Some (VStr (dumps result))) as ->.
  { pose proof (Hstore (messages b) (Task.id task) (VStr (dumps result))
                  (Task.result_timeout task) (Some t)) as Hs.
    subst b1. unfold set_result, call_, call, serialize in Hreply.
    simpl in Hreply. rewrite Hid in Hreply. by rewrite Hreply in Hs. }
  simpl. rewrite Hcodec, <- Hid. simpl.
  by destruct result as [[]|].
Qed.

(** [Broker.pop_result] contains no failure of the codec: whatever
    [loads] raises on the stored message is what [pop_result] raises, and
    the message has been taken off the backend all the same. *)
Theorem pop_result_undecodable `{Identified T} (task : T) timeout b
    (s : string) mq' (e : exn) :
  py_lt timeout 0 = false →
  mq_pop_result (id_of task) timeout (messages b) = (Some (VStr s), mq') →
  loads s = Raise e →
  pop_result loads task timeout b = (Raise e, with_messages b mq').
Proof.
  intros Hok Hreply Hloads.
  rewrite (pop_result_reply loads task timeout b _ mq' Hok Hreply).
  simpl. by rewrite Hloads.
Qed.


(** An exception out of a task invocation other than the stop signal is
    not caught by [Broker.start_worker]: the worker ends with it. *)
Theorem start_worker_propagates max_wait n b b1 (task : object) b2 e b3 fuel :
  rounds loads task_invoke max_wait n b b1 →
  next_task loads max_wait b1 = (Return task, b2) →
  task ≠ OValue VNone →
  task_invoke task b2 = (Raise e, b3) →
  e ≠ StopWorker →
  n < fuel →
  start_worker loads task_invoke fuel max_wait b = Some (Raise e, b3).
Proof.
  intros Hrounds Hnext Htask Hinvoke He Hfuel. unfold start_worker.
  replace fuel with (n + S (fuel - S n)) by lia.
  rewrite (worker_loop_rounds loads task_invoke _ _ _ _ Hrounds).
  rewrite (worker_loop_raise loads task_invoke _ _ _ _ _ _ _
             Hnext Htask Hinvoke).
  by destruct e.
Qed.

(** A dequeued message whose deserialization raises an [Exception] ends
    the worker: since [next_task] answers [None] for it,
    [Broker.start_worker] leaves its loop and returns as it does on a
    timeout, with the error logged and without pulling any later task. *)
Theorem start_worker_stops_on_undecodable max_wait n b b1 task_id message
    mq' e fuel :
  rounds loads task_invoke max_wait n b b1 →
  get max_wait (messages b1) = (Some (task_id, message), mq') →
  (deserialize loads message (with_messages b1 mq')).1 = Raise e →
  is_Exception e = true →
  n < fuel →
  start_worker loads task_invoke fuel max_wait b =
    Some (Return tt,
          with_log (with_messages b1 mq')
            (Log ERROR "cannot deserialize task [%s:%s]" [name b1; task_id])).
Proof.
  intros Hrounds Hget He Hexn Hfuel. unfold start_worker.
  replace fuel with (n + S (fuel - S n)) by lia.
  rewrite (worker_loop_rounds loads task_invoke _ _ _ _ Hrounds).
  rewrite (worker_loop_timeout loads task_invoke max_wait _ b1
             (with_log (with_messages b1 mq')
                (Log ERROR "cannot deserialize task [%s:%s]"
                   [name b1; task_id]))); [done|].
  rewrite (next_task_reply loads max_wait b1 _ mq' Hget).
  by rewrite He, Hexn.
Qed.


Lemma worker_loop_keeps_tasks fuel max_wait b r b' :
  (∀ (task : object) b0, tasks (task_invoke task b0).2 = tasks b0) →
  worker_loop loads task_invoke fuel max_wait b = Some (r, b') →
  tasks b' = tasks b.
Proof.
  intros Hinvoke. revert b.
  induction fuel as [|fuel IH]; intros b; [discriminate|].
  simpl.
  pose proof (keeps_next_task loads max_wait b) as Hb1.
  destruct (next_task loads max_wait b) as [[task|e] b1]; simpl in Hb1;
    [|intros [= _ <-]; done].
  assert (Hround :
    match task_invoke task b1 with
    | (Raise e, b2) => Some (Raise e, b2)
    | (Return _, b2) => worker_loop loads task_invoke fuel max_wait b2
    end = Some (r, b') → tasks b' = tasks b).
  { pose proof (Hinvoke task b1) as Hb2.
    destruct (task_invoke task b1) as [[[]|e] b2]; simpl in Hb2.
    - intros Hloop. rewrite (IH _ Hloop). congruence.
    - intros [= _ <-]. congruence. }
  destruct task as [[]|]; try exact Hround. by intros [= _ <-].
Qed.

(** Of all broker operations only [expose] changes the task registry, as
    long as invoking a task does not: every other operation leaves the
    registry exactly as it was, and no operation removes or replaces an
    entry. *)
Theorem operations_keep_registry (op : operation) b b' :
  (∀ (task : object) b0, tasks (task_invoke task b0).2 = tasks b0) →
  after callable_name dumps loads STATUS_VALUES task_invoke op b = Some b' →
  tasks b ⊆ tasks b'
  ∧ ((∀ obj, op ≠ Expose obj) → tasks b' = tasks b).
Proof.
  intros Hinvoke Hafter.
  assert (Hcases : (∃ obj, op = Expose obj) ∨ tasks b' = tasks b).
  { destruct op; unfold after in Hafter;
      try (apply (inj Some) in Hafter; subst b').
    - left. by eexists.
    - right. revert Hafter. unfold start_worker.
      destruct (worker_loop loads task_invoke fuel max_wait b)
        as [[[[]|e] b1]|] eqn:Hloop; simpl; try discriminate.
      + intros [= <-]. by eapply worker_loop_keeps_tasks.
      + pose proof (worker_loop_keeps_tasks _ _ _ _ _ Hinvoke Hloop).
        destruct (is_StopWorker e); by intros [= <-].
    - right. apply keeps_stop.
    - right. apply keeps_call_.
    - right. apply keeps_enqueue.
    - right. apply keeps_set_status.
    - right. apply keeps_status.
    - right. apply keeps_next_task.
    - right. apply Hinvoke.
    - right. apply keeps_call_.
    - right. apply keeps_set_result.
    - right. apply keeps_pop_result.
    - right. apply keeps_call_.
    - right. apply keeps_init_taskset. }
  destruct Hcases as [[obj ->]|Hsame].
  - split; [|intros Hne; by destruct (Hne obj)].
    unfold after in Hafter. apply (inj Some) in Hafter. subst b'.
    apply expose_loop_grows.
  - split; [by rewrite Hsame|done].
Qed.

End Lifecycle.

(** ** The further properties, on the reference backend *)

Section MoreExamples.
Import Fixture.

Lemma memory_result_store (mq : Memory.t) (task_id : string)
    (message : value) (expires timeout : timeout) :
  (mq_pop_result task_id timeout
     (mq_set_result task_id message expires mq)).1 = Some message.
Proof.
  simpl. unfold Memory.pop_result, Memory.set_result. simpl.
  by rewrite lookup_insert_eq.
Qed.

Lemma fixture_invoke_keeps_tasks (task : object) (b : broker) :
  tasks (task_invoke task b).2 = tasks b.
Proof.
  destruct task as [v|t]; [done|]. simpl.
  by destruct (tasks b !! Task.name t) as [[]|].
Qed.

(** Exposing [arithmetic] on a new broker registers both functions. *)
Lemma expose_registers_witness :
  NoDup (exposed_names callable_name arithmetic)
  ∧ (∀ n, n ∈ exposed_names callable_name arithmetic → n ∉ dom (tasks fresh))
  ∧ (expose callable_name arithmetic fresh).1 = Return tt
  ∧ tasks (expose callable_name arithmetic fresh).2 !! "mul"
    = Some (Function "mul").
Proof.
  assert (Hnodup : NoDup (exposed_names callable_name arithmetic))
    by (apply (bool_decide_unpack _); vm_compute; exact I).
  assert (Hfresh : ∀ n, n ∈ exposed_names callable_name arithmetic
                        → n ∉ dom (tasks fresh)).
  { apply Forall_forall. apply (bool_decide_unpack _). vm_compute. exact I. }
  split; [exact Hnodup|]. split; [exact Hfresh|].
  rewrite (expose_registers callable_name arithmetic fresh Hnodup Hfresh).
  split; reflexivity.
Defined.

(** A task space whose second name is the reserved one: the first name is
    registered, the third is not. *)
Lemma expose_first_conflict_witness :
  let space := ATaskSpace [("add", Function "add");
                           (stop_task_name, Function "halt");
                           ("mul", Function "mul")] in
  let b' := (expose callable_name space fresh).2 in
  (expose callable_name space fresh).1
  = Raise (ValueError "task '<stop_task>' conflicts with existing task")
  ∧ tasks b' !! "add" = Some (Function "add")
  ∧ tasks b' !! stop_task_name = Some StopTask
  ∧ tasks b' !! "mul" = None.
Proof.
  intros space b'. subst b'.
  assert (Hnodup : NoDup (exposed_names callable_name space))
    by (apply (bool_decide_unpack _); vm_compute; exact I).
  assert (Hfresh : ∀ m, m ∈ [("add", Function "add")].*1
                        → m ∉ dom (tasks fresh)).
  { apply Forall_forall. apply (bool_decide_unpack _). vm_compute. exact I. }
  assert (Hconflict : stop_task_name ∈ dom (tasks fresh))
    by (apply (bool_decide_unpack _); vm_compute; exact I).
  rewrite (expose_first_conflict callable_name space fresh
             [("add", Function "add")] stop_task_name (Function "halt")
             [("mul", Function "mul")] eq_refl Hnodup Hfresh Hconflict).
  repeat split; reflexivity.
Defined.

(** The result ["done"] of [bare_task] comes back. *)
Lemma set_result_then_pop_result_witness :
  Pickle.loads (Pickle.dumps (OValue (VStr "done")))
  = Return (OValue (VStr "done"))
  ∧ (0 ≤ 0)%Z
  ∧ (pop_result Pickle.loads bare_task (Some 0%Z)
       (set_result Pickle.dumps bare_task (OValue (VStr "done")) fresh).2).1
    = Return (OValue (VStr "done")).
Proof.
  assert (Hle : (0 ≤ 0)%Z) by lia.
  split; [reflexivity|]. split; [exact Hle|].
  exact (set_result_then_pop_result Pickle.dumps Pickle.loads bare_task
           bare_task (OValue (VStr "done")) 0 fresh
           memory_result_store eq_refl eq_refl Hle).
Defined.

(** A stored result that is empty: [loads] raises [EOFError], and so does
    [pop_result]. *)
Lemma pop_result_undecodable_witness :
  let b := with_messages fresh
             (mq_set_result "t4" (VStr "") None (messages fresh)) in
  let popped := mq_pop_result "t4" (Some 0%Z) (messages b) in
  py_lt (Some 0%Z) 0 = false
  ∧ popped.1 = Some (VStr "")
  ∧ Pickle.loads "" = Raise EOFError
  ∧ pop_result Pickle.loads bare_task (Some 0%Z) b
    = (Raise EOFError, with_messages b popped.2).
Proof.
  intros b popped.
  assert (Hok : py_lt (Some 0%Z) 0 = false) by reflexivity.
  assert (Hreply : mq_pop_result (id_of bare_task) (Some 0%Z) (messages b)
                   = (Some (VStr ""), popped.2)) by reflexivity.
  assert (Hloads : Pickle.loads "" = Raise EOFError) by reflexivity.
  split; [exact Hok|]. split; [reflexivity|]. split; [exact Hloads|].
  exact (pop_result_undecodable Pickle.loads bare_task (Some 0%Z) b ""
           popped.2 EOFError Hok Hreply Hloads).
Defined.


(** A queued message that is the pickle of a string: the object has no
    [invoke], and the worker ends with the error. *)
Lemma start_worker_propagates_witness :
  let b := with_messages fresh
             (enqueue_task "t7" (VStr "Shello") None (messages fresh)) in
  ∃ b3,
    start_worker Pickle.loads task_invoke 1 (Some 0%Z) b
    = Some (Raise (AttributeError "invoke"), b3).
Proof.
  intros b.
  set (b2 := (next_task Pickle.loads (Some 0%Z) b).2).
  exists b2.
  assert (Hexn : AttributeError "invoke" ≠ StopWorker) by discriminate.
  assert (Htask : OValue (VStr "hello") ≠ OValue VNone) by discriminate.
  assert (Hfuel : 0 < 1) by lia.
  assert (Hnext : next_task Pickle.loads (Some 0%Z) b
                  = (Return (OValue (VStr "hello")), b2)) by reflexivity.
  assert (Hinvoke : task_invoke (OValue (VStr "hello")) b2
                    = (Raise (AttributeError "invoke"), b2)) by reflexivity.
  exact (start_worker_propagates Pickle.loads task_invoke (Some 0%Z) 0 b b
           (OValue (VStr "hello")) b2 (AttributeError "invoke") b2 1
           (rounds_O _ _ _ b) Hnext Htask Hinvoke Hexn Hfuel).
Defined.

(** A message that is not a pickle, queued before [bare_task]: the worker
    returns and [bare_task] is still in the queue. *)
Lemma start_worker_stops_on_undecodable_witness :
  let b := (enqueue Pickle.dumps bare_task
              (with_messages fresh
                 (enqueue_task "t9" (VStr "garbage") None (messages fresh)))).2
  in
  ∃ b',
    start_worker Pickle.loads task_invoke 5 (Some 0%Z) b = Some (Return tt, b')
    ∧ Memory.queue (messages b')
      = [("t4", serialize Pickle.dumps (OTask bare_task))].
Proof.
  intros b.
  assert (Hfuel : 0 < 5) by lia.
  assert (Hget : get (Some 0%Z) (messages b)
                 = (Some ("t9", VStr "garbage"),
                    (get (Some 0%Z) (messages b)).2)) by reflexivity.
  assert (Hraise :
    (deserialize Pickle.loads (VStr "garbage")
       (with_messages b (get (Some 0%Z) (messages b)).2)).1
    = Raise UnpicklingError) by reflexivity.
  assert (Hexn : is_Exception UnpicklingError = true) by reflexivity.
  eexists. split.
  - exact (start_worker_stops_on_undecodable Pickle.loads task_invoke
             (Some 0%Z) 0 b b "t9" (VStr "garbage")
             (get (Some 0%Z) (messages b)).2 UnpicklingError 5
             (rounds_O _ _ _ b) Hget Hraise Hexn Hfuel).
  - reflexivity.
Defined.


(** Enqueuing leaves the registry of a new broker as it is. *)
Lemma operations_keep_registry_witness :
  let b' := (enqueue Pickle.dumps tracked_task fresh).2 in
  after callable_name Pickle.dumps Pickle.loads STATUS_VALUES task_invoke
    (Enqueue tracked_task) fresh = Some b'
  ∧ tasks b' = tasks fresh.
Proof.
  intros b'.
  assert (Hafter :
    after callable_name Pickle.dumps Pickle.loads STATUS_VALUES task_invoke
      (Enqueue tracked_task) fresh = Some b') by reflexivity.
  split; [exact Hafter|].
  destruct (operations_keep_registry callable_name Pickle.dumps Pickle.loads
              STATUS_VALUES task_invoke (Enqueue tracked_task) fresh b'
              fixture_invoke_keeps_tasks Hafter) as [_ Hsame].
  apply Hsame. discriminate.
Defined.

End MoreExamples.
